(** * CSF-Downloader: a shallow embedding of the depot download engine

    The development follows the layout of the Python sources:

    - [reboot_downloader]  : [get_data_local], the decoder of the two
      descriptor formats ([reboot_downloader.py]);
    - [storage]            : path helpers ([steamctl/utils/storage.py]);
    - [clients]            : [CTLDepotFile.download_to] and the depot-key
      store of [CachingCDNClient] ([steamctl/commands/clients.py]);
    - [gcmds]              : [ManifestFileIndex] and the submission loop of
      [cmd_depot_download] ([steamctl/commands/depot/gcmds.py]);
    - [tqdm]               : the fallback progress bar
      ([steamctl/utils/tqdm.py]).

    Conventions.  A Python [bytes] value is a [list byte]; a Python [int] is
    a [Z].  The text of a descriptor, which may hold any character of
    Unicode, is a [text], the list of its code points; the other [str]
    values (file names, paths, labels) are [string]s.  A Python exception
    is the [None] of an [option] result.  A [dict] with string keys is a
    [gmap] over these keys. *)

From Stdlib Require Import ZArith Lia Bool.
From Stdlib Require Import Strings.Ascii Strings.String Strings.Byte.
From stdpp Require Import gmap strings list fin_maps.

Open Scope Z_scope.

(** ** Bytes and machine integers *)

#[global] Instance byte_eq_dec : EqDecision byte := Byte.byte_eq_dec.

Definition byte_to_Z (b : byte) : Z := Z.of_N (Byte.to_N b).

Definition byte_of_Z (z : Z) : byte :=
  match Byte.of_N (Z.to_N z) with
  | Some b => b
  | None => "000"%byte
  end.

(** [data[i] ^ xorkey] on a [bytearray] cell, [xorkey] being a Python int. *)
Definition xor_byte (xorkey : Z) (b : byte) : byte :=
  byte_of_Z (Z.lxor (byte_to_Z b) xorkey).

(** A 32-bit unsigned integer stored least significant byte first. *)
Definition u32_le (b0 b1 b2 b3 : byte) : Z :=
  byte_to_Z b0 + 256 * byte_to_Z b1 + 65536 * byte_to_Z b2
  + 16777216 * byte_to_Z b3.

Definition le_u32 (z : Z) : list byte :=
  [ byte_of_Z (z mod 256); byte_of_Z ((z / 256) mod 256);
    byte_of_Z ((z / 65536) mod 256); byte_of_Z ((z / 16777216) mod 256) ].

(** Python slices: [l[a:]] and [l[a:b]] for [0 <= a <= b]. *)
Definition slice_from {A} (a : nat) (l : list A) : list A := drop a l.
Definition slice {A} (a b : nat) (l : list A) : list A := take (b - a) (drop a l).

(** The truth value of a [str]: false for the empty string only. *)
Definition truthy_str (s : string) : bool :=
  match s with EmptyString => false | _ => true end.

(** A [str] that may hold any character of Unicode: its code points. *)
Definition text : Type := list Z.

(** The text of a literal of this development. *)
Definition text_of (s : string) : text :=
  map (fun c => Z.of_N (N_of_ascii c)) (list_ascii_of_string s).

Definition truthy_text (s : text) : bool :=
  match s with [] => false | _ => true end.

(** ** reboot_downloader.py *)

Module reboot_downloader.

(** [struct.unpack('III', header)]: three unsigned 32-bit integers in the
    byte order of the host, which is little-endian on the platforms the tool
    is built for; any length other than 12 raises [struct.error]. *)
Definition unpack_III (header : list byte) : option (Z * Z * Z) :=
  match header with
  | [a0; a1; a2; a3; b0; b1; b2; b3; c0; c1; c2; c3] =>
      Some (u32_le a0 a1 a2 a3, u32_le b0 b1 b2 b3, u32_le c0 c1 c2 c3)
  | _ => None
  end.

Definition pack_III (xorkey size xorkeyverify : Z) : list byte :=
  le_u32 xorkey ++ le_u32 size ++ le_u32 xorkeyverify.

(** [xorkey ^= 0xFFFEA4C8; xorkey &= 0xFF] *)
Definition derive_xorkey (xorkey : Z) : Z :=
  Z.land (Z.lxor xorkey 0xFFFEA4C8) 0xFF.

(** The first half of the [.st] branch of [get_data_local]: the header is
    parsed, the key derived, and [content[12:12+size]] XORed in place. *)
Definition st_deobfuscate (content : list byte) : option (list byte) :=
  match unpack_III (slice 0 12 content) with
  | Some (xorkey, size, _) =>
      let xorkey := derive_xorkey xorkey in
      let data := slice 12 (12 + Z.to_nat size) content in
      Some (map (xor_byte xorkey) data)
  | None => None
  end.

(** *** The two directive patterns

    addappid_pattern (its tokens set apart by blanks):
      addappid \( \s* (\d+) \s* (?: , \s* \d+ \s* , \s* "([0-9a-f]+)" \s* )? \)
    setmanifestid_pattern:
      setManifestid \( \s* (\d+) \s* , \s* "(\d+)" \s* (?: , \s* \d+ \s* )? \)

    Both are [str] patterns, so [\d] and [\s] are the Unicode classes.  In
    both patterns every repetition is followed by a character outside its
    own class (a digit run by white space, a comma, a quote or a closing
    parenthesis; a white-space run by a digit, a comma, a quote or a closing
    parenthesis), so the greedy choice is the only one that can succeed and
    the matcher below never needs to give characters back.  The optional
    group is tried first and skipped when it, or the closing parenthesis
    after it, fails. *)

Definition in_ranges (ranges : list (Z * Z)) (c : Z) : bool :=
  existsb (fun r => (r.1 <=? c) && (c <=? r.2)) ranges.

(** The decimal digits of Unicode (category Nd), which is what [\d] matches
    in a [str] pattern: the ASCII digits and the digits of the other
    scripts, as ranges of code points.  The table is that of Unicode 14.0,
    which CPython 3.11 carries; later versions add digits of further
    scripts. *)
Definition decimal_ranges : list (Z * Z) :=
  [(48, 57); (1632, 1641); (1776, 1785); (1984, 1993); (2406, 2415);
   (2534, 2543); (2662, 2671); (2790, 2799); (2918, 2927); (3046, 3055);
   (3174, 3183); (3302, 3311); (3430, 3439); (3558, 3567); (3664, 3673);
   (3792, 3801); (3872, 3881); (4160, 4169); (4240, 4249); (6112, 6121);
   (6160, 6169); (6470, 6479); (6608, 6617); (6784, 6793); (6800, 6809);
   (6992, 7001); (7088, 7097); (7232, 7241); (7248, 7257); (42528, 42537);
   (43216, 43225); (43264, 43273); (43472, 43481); (43504, 43513);
   (43600, 43609); (44016, 44025); (65296, 65305); (66720, 66729);
   (68912, 68921); (69734, 69743); (69872, 69881); (69942, 69951);
   (70096, 70105); (70384, 70393); (70736, 70745); (70864, 70873);
   (71248, 71257); (71360, 71369); (71472, 71481); (71904, 71913);
   (72016, 72025); (72784, 72793); (73040, 73049); (73120, 73129);
   (92768, 92777); (92864, 92873); (93008, 93017); (120782, 120831);
   (123200, 123209); (123632, 123641); (125264, 125273); (130032, 130041)].

(** The white space of Unicode, which is what [\s] matches in a [str]
    pattern: the ASCII white space, the separators U+001C..U+001F, NEL,
    NBSP, and beyond Latin-1 the spaces and line separators U+1680,
    U+2000..U+200A, U+2028, U+2029, U+202F, U+205F and U+3000. *)
Definition space_ranges : list (Z * Z) :=
  [(9, 13); (28, 32); (133, 133); (160, 160); (5760, 5760); (8192, 8202);
   (8232, 8233); (8239, 8239); (8287, 8287); (12288, 12288)].

(** [\d] *)
Definition re_digit (c : Z) : bool := in_ranges decimal_ranges c.

(** [\s] *)
Definition re_space (c : Z) : bool := in_ranges space_ranges c.

(** [[0-9a-f]] *)
Definition re_hex (c : Z) : bool :=
  ((48 <=? c) && (c <=? 57)) || ((97 <=? c) && (c <=? 102)).

(** The double quote, U+0022. *)
Definition dquote : text := [34].

(** A match in progress: the text still to read and the number of
    characters consumed so far. *)
Definition cursor : Type := text * nat.

Fixpoint lit (p : text) (k : cursor) : option cursor :=
  match p, k.1 with
  | [], _ => Some k
  | a :: p', b :: s' => if a =? b then lit p' (s', S k.2) else None
  | _ :: _, [] => None
  end.

(** The longest run of characters of class [f], with what follows it. *)
Fixpoint span (f : Z -> bool) (s : text) : text * text :=
  match s with
  | c :: s' => if f c then let r := span f s' in (c :: r.1, r.2) else ([], s)
  | [] => ([], [])
  end.

(** [X*] and [X+] for a character class [X]. *)
Definition star (f : Z -> bool) (k : cursor) : text * cursor :=
  let r := span f k.1 in (r.1, (r.2, (k.2 + length r.1)%nat)).

Definition plus (f : Z -> bool) (k : cursor) : option (text * cursor) :=
  let r := star f k in
  match r.1 with
  | [] => None
  | _ => Some r
  end.

Definition spaces (k : cursor) : cursor := (star re_space k).2.

(** The optional group of [addappid_pattern]: flags and quoted hex key. *)
Definition addappid_key_group (k : cursor) : option (text * cursor) :=
  k ← lit (text_of ",") k;
  r ← plus re_digit (spaces k);
  k ← lit (text_of ",") (spaces r.2);
  k ← lit dquote (spaces k);
  h ← plus re_hex k;
  k ← lit dquote h.2;
  Some (h.1, spaces k).

(** A match of the [addappid] pattern at the start of [s]: group 1, group 2
    ([None] when the optional group took no part) and the match length. *)
Definition match_addappid (s : text) : option (text * option text * nat) :=
  k ← lit (text_of "addappid(") (s, 0%nat);
  d ← plus re_digit (spaces k);
  let k := spaces d.2 in
  match (g ← addappid_key_group k; e ← lit (text_of ")") g.2; Some (g.1, e)) with
  | Some (key, e) => Some (d.1, Some key, e.2)
  | None => e ← lit (text_of ")") k; Some (d.1, None, e.2)
  end.

(** The optional group of [setmanifestid_pattern]: the flags. *)
Definition setmanifestid_flags_group (k : cursor) : option cursor :=
  k ← lit (text_of ",") k;
  r ← plus re_digit (spaces k);
  Some (spaces r.2).

Definition match_setmanifestid (s : text) : option (text * text * nat) :=
  k ← lit (text_of "setManifestid(") (s, 0%nat);
  d ← plus re_digit (spaces k);
  k ← lit (text_of ",") (spaces d.2);
  k ← lit dquote (spaces k);
  m ← plus re_digit k;
  k ← lit dquote m.2;
  let k := spaces k in
  match (g ← setmanifestid_flags_group k; lit (text_of ")") g) with
  | Some e => Some (d.1, m.1, e.2)
  | None => e ← lit (text_of ")") k; Some (d.1, m.1, e.2)
  end.

(** [pattern.finditer(content)]: the matches from left to right, none
    overlapping another; the search resumes where the last match ended.
    [skip] counts the characters of the current match still to pass over.
    Neither pattern matches the empty string. *)
Fixpoint finditer_from {G} (match_at : text -> option (G * nat))
    (skip : nat) (content : text) : list G :=
  match content with
  | [] => []
  | _ :: rest =>
      match skip with
      | S n => finditer_from match_at n rest
      | O =>
          match match_at content with
          | Some (g, len) => g :: finditer_from match_at (pred len) rest
          | None => finditer_from match_at O rest
          end
      end
  end.

Definition finditer {G} (match_at : text -> option (G * nat))
    (content : text) : list G :=
  finditer_from match_at O content.

Definition addappid_finditer : text -> list (text * option text) :=
  finditer match_addappid.

Definition setmanifestid_finditer : text -> list (text * text) :=
  finditer match_setmanifestid.

(** The body of the first loop:
    [decrypt_key = match.group(2) if match.group(2) else None]
    [if decrypt_key: depot_keys[depot_id] = decrypt_key] *)
Definition addappid_step (depot_keys : gmap text text)
    (m : text * option text) : gmap text text :=
  let depot_id := m.1 in
  let decrypt_key :=
    match m.2 with
    | Some g2 => if truthy_text g2 then Some g2 else None
    | None => None
    end in
  match decrypt_key with
  | Some k => <[depot_id := k]> depot_keys
  | None => depot_keys
  end.

(** What [get_data_local] extracts from the text of a descriptor: the
    [depot_keys] dictionary it dumps to [depot_keys.json] and, in order, the
    (depot id, manifest id) pairs whose manifest files it then looks for. *)
Record directives := {
  depot_keys : gmap text text;
  manifest_ids : list (text * text)
}.

Definition parse_directives (content : text) : directives :=
  {| depot_keys := foldl addappid_step ∅ (addappid_finditer content);
     manifest_ids := setmanifestid_finditer content |}.

(** *** Text encoding

    [bytes.decode('utf-8')] and [str.encode('utf-8')], both strict: the
    sequences of one to four bytes of UTF-8, without overlong forms,
    surrogates or code points past U+10FFFF.  [None] stands for
    [UnicodeDecodeError] and [UnicodeEncodeError]. *)

(** A continuation byte, [10xxxxxx], and its six bits. *)
Definition continuation (b : byte) : bool :=
  (128 <=? byte_to_Z b) && (byte_to_Z b <=? 191).

Definition six_bits (b : byte) : Z := byte_to_Z b - 128.

Fixpoint utf8_decode (bs : list byte) : option text :=
  match bs with
  | [] => Some []
  | b0 :: rest =>
      let x := byte_to_Z b0 in
      if x <? 128 then
        s ← utf8_decode rest; Some (x :: s)
      else if (194 <=? x) && (x <=? 223) then
        match rest with
        | b1 :: rest' =>
            if continuation b1 then
              s ← utf8_decode rest';
              Some ((x - 192) * 64 + six_bits b1 :: s)
            else None
        | _ => None
        end
      else if (224 <=? x) && (x <=? 239) then
        match rest with
        | b1 :: b2 :: rest' =>
            if continuation b1 && continuation b2
               && implb (x =? 224) (160 <=? byte_to_Z b1)
               && implb (x =? 237) (byte_to_Z b1 <=? 159)
            then
              s ← utf8_decode rest';
              Some ((x - 224) * 4096 + six_bits b1 * 64 + six_bits b2 :: s)
            else None
        | _ => None
        end
      else if (240 <=? x) && (x <=? 244) then
        match rest with
        | b1 :: b2 :: b3 :: rest' =>
            if continuation b1 && continuation b2 && continuation b3
               && implb (x =? 240) (144 <=? byte_to_Z b1)
               && implb (x =? 244) (byte_to_Z b1 <=? 143)
            then
              s ← utf8_decode rest';
              Some ((x - 240) * 262144 + six_bits b1 * 4096
                    + six_bits b2 * 64 + six_bits b3 :: s)
            else None
        | _ => None
        end
      else None
  end.

Definition utf8_encode_char (c : Z) : option (list byte) :=
  if c <? 0 then None
  else if c <? 128 then Some [byte_of_Z c]
  else if c <? 2048 then
    Some [byte_of_Z (192 + c / 64); byte_of_Z (128 + c mod 64)]
  else if c <? 65536 then
    if (55296 <=? c) && (c <=? 57343) then None
    else Some [byte_of_Z (224 + c / 4096);
               byte_of_Z (128 + (c / 64) mod 64);
               byte_of_Z (128 + c mod 64)]
  else if c <? 1114112 then
    Some [byte_of_Z (240 + c / 262144);
          byte_of_Z (128 + (c / 4096) mod 64);
          byte_of_Z (128 + (c / 64) mod 64);
          byte_of_Z (128 + c mod 64)]
  else None.

Fixpoint utf8_encode (s : text) : option (list byte) :=
  match s with
  | [] => Some []
  | c :: s' =>
      b ← utf8_encode_char c; r ← utf8_encode s'; Some (b ++ r)
  end.

Section get_data_local.

(** [zlib.decompress]; [None] when it raises [zlib.error]. *)
Variable decompress : list byte -> option (list byte).

(** The [.st] branch: header, XOR, [zlib.decompress(data)], and
    [decompressed_data[512:].decode('utf-8')]. *)
Definition st_content (content : list byte) : option text :=
  data ← st_deobfuscate content;
  decompressed_data ← decompress data;
  utf8_decode (slice_from 512 decompressed_data).

(** The descriptor [get_data_local] found: the text of the [.lua] file, as
    read in text mode with the encoding UTF-8, or the bytes of the [.st]
    file. *)
Inductive Descriptor :=
  | LuaFile (content : text)
  | StFile (content : list byte).

(** [get_data_local] up to the search for the manifest files named by
    [manifest_ids]; [None] when the function raises. *)
Definition get_data_local (d : Descriptor) : option directives :=
  match d with
  | LuaFile content => Some (parse_directives content)
  | StFile content =>
      content ← st_content content; Some (parse_directives content)
  end.

End get_data_local.

(** *** Format-B containers, as a writer would build them *)

Section containers.

(** [zlib.compress] *)
Variable compress : list byte -> list byte.

(** The header, whose second field is [size], and the masked payload. *)
Definition container (xorkey size xorkeyverify : Z) (payload : list byte)
    : list byte :=
  pack_III xorkey size xorkeyverify
  ++ map (xor_byte (derive_xorkey xorkey)) payload.

(** The payload as the specification words it: the padding, then the
    compressed text.  [None] when the text cannot be encoded. *)
Definition container_padding_outside (xorkey xorkeyverify : Z)
    (pad : list byte) (content : text) : option (list byte) :=
  encoded ← utf8_encode content;
  let payload := pad ++ compress encoded in
  Some (container xorkey (Z.of_nat (length payload)) xorkeyverify payload).

(** The payload the decoder undoes: padding and text compressed together. *)
Definition container_padding_inside (xorkey xorkeyverify : Z)
    (pad : list byte) (content : text) : option (list byte) :=
  encoded ← utf8_encode content;
  let payload := compress (pad ++ encoded) in
  Some (container xorkey (Z.of_nat (length payload)) xorkeyverify payload).

End containers.

(** *** A zlib codec for stored blocks

    The zlib format (RFC 1950) around DEFLATE streams (RFC 1951) made of
    stored blocks only, which is what [zlib.compress(data, 0)] writes.  The
    decoder checks the two header bytes, copies stored blocks and checks the
    Adler-32 trailer; it gives [None] on a malformed stream and also on a
    Huffman-coded block, which this codec does not inflate. *)
Definition adler32 (d : list byte) : Z :=
  let ab := foldl (fun ab x =>
                     let a := (ab.1 + byte_to_Z x) mod 65521 in
                     (a, (ab.2 + a) mod 65521))
                  (1, 0) d in
  ab.2 * 65536 + ab.1.

Definition be_u32 (z : Z) : list byte := rev (le_u32 z).

Definition stored_block (final : bool) (d : list byte) : list byte :=
  let len := Z.of_nat (length d) in
  [ byte_of_Z (if final then 1 else 0);
    byte_of_Z (len mod 256); byte_of_Z (len / 256);
    byte_of_Z ((65535 - len) mod 256); byte_of_Z ((65535 - len) / 256) ]
  ++ d.

(** The longest stored block, 65535 bytes. *)
Definition block_max : nat := Z.to_nat 65535.

Fixpoint stored_blocks (fuel : nat) (d : list byte) : list byte :=
  match fuel with
  | O => stored_block true (take block_max d)
  | S n =>
      if (length d <=? block_max)%nat then stored_block true d
      else stored_block false (take block_max d)
           ++ stored_blocks n (drop block_max d)
  end.

Definition zlib_store (d : list byte) : list byte :=
  [byte_of_Z 120; byte_of_Z 1]
  ++ stored_blocks (length d / block_max) d ++ be_u32 (adler32 d).

Fixpoint inflate_stored (fuel : nat) (d : list byte)
    : option (list byte * list byte) :=
  match fuel, d with
  | S n, hdr :: l0 :: l1 :: n0 :: n1 :: rest =>
      let len := byte_to_Z l0 + 256 * byte_to_Z l1 in
      let nlen := byte_to_Z n0 + 256 * byte_to_Z n1 in
      let data := take (Z.to_nat len) rest in
      if (Z.land (Z.shiftr (byte_to_Z hdr) 1) 3 =? 0)
         && (len + nlen =? 65535)
         && (Z.of_nat (length data) =? len)
      then
        let rest := drop (Z.to_nat len) rest in
        if Z.testbit (byte_to_Z hdr) 0 then Some (data, rest)
        else r ← inflate_stored n rest; Some (data ++ r.1, r.2)
      else None
  | _, _ => None
  end.

Definition zlib_inflate (d : list byte) : option (list byte) :=
  match d with
  | cmf :: flg :: rest =>
      let c := byte_to_Z cmf in
      let f := byte_to_Z flg in
      if (Z.land c 15 =? 8) && (Z.shiftr c 4 <=? 7)
         && ((256 * c + f) mod 31 =? 0) && negb (Z.testbit f 5)
      then
        r ← inflate_stored (length rest) rest;
        match r.2 with
        | a3 :: a2 :: a1 :: a0 :: _ =>
            if u32_le a0 a1 a2 a3 =? adler32 r.1 then Some r.1 else None
        | _ => None
        end
      else None
  | _ => None
  end.

(** *** The loop over the manifests

    [run_steamctl_download] and [depotdownloadermod_add].  A call of
    [cmd_depot_download] ends with a status, with [KeyboardInterrupt] or
    with another exception; [sigint] tells whether [signal_handler] ran for
    a first Ctrl+C while the call lasted, which sets [is_canceling].  An
    exception raised while the arguments are prepared counts as another
    exception of the call. *)
Inductive DownloadEnd :=
  | Status (result : Z)
  | KeyboardInterrupt
  | OtherException.

Record Attempt := {
  ending : DownloadEnd;
  sigint : bool
}.

Section depotdownloadermod_add.

(** What happens when the manifest file of a given name is downloaded. *)
Variable cmd_depot_download : text -> Attempt.

(** [run_steamctl_download]: the value returned and [is_canceling] as the
    call leaves it. *)
Definition run_steamctl_download (is_canceling : bool) (manifest_file : text)
    : bool * bool :=
  if is_canceling then (false, is_canceling)
  else
    let a := cmd_depot_download manifest_file in
    let is_canceling := sigint a in
    match ending a with
    | Status result =>
        if result =? 1 then (false, true) else (true, is_canceling)
    | KeyboardInterrupt => (false, true)
    | OtherException => (false, is_canceling)
    end.

(** [for manifest in manifests:] of [depotdownloadermod_add], with the
    manifests handed to [run_steamctl_download] logged, oldest first. *)
Fixpoint download_manifests (manifests : list text) (is_canceling : bool)
    (success : bool) (log : list text) : bool * bool * list text :=
  match manifests with
  | [] => (success, is_canceling, log)
  | manifest :: rest =>
      if is_canceling then (false, is_canceling, log)
      else
        let r := run_steamctl_download is_canceling manifest in
        let success := if r.1 then success else false in
        let log := log ++ [manifest] in
        if r.2 then (false, r.2, log)
        else download_manifests rest r.2 success log
  end.

Definition depotdownloadermod_add (manifests : list text)
    (is_canceling : bool) : bool * bool * list text :=
  download_manifests manifests is_canceling true [].

End depotdownloadermod_add.

(** *** The search for the manifest files

    The loop of [get_data_local] over the [setManifestid] pairs.  A path is
    the text [pathlib] prints for it, the three directories being absolute
    and other than the root, so that two paths are equal when their texts
    are; the file system is the finite map from the paths of the regular
    files to their contents.  Paths are [text]s, as the ids in the file
    names are. *)
Definition Files := gmap text (list byte).

Definition path_exists (files : Files) (path : text) : bool :=
  bool_decide (is_Some (files !! path)).

(** [shutil.copy2(src, dst)] for a source that exists, as it does where the
    loop calls it. *)
Definition copy2 (src dst : text) (files : Files) : Files :=
  match files !! src with
  | Some content => <[dst := content]> files
  | None => files
  end.

(** [directory / name] *)
Definition in_dir (directory name : text) : text :=
  directory ++ text_of "/" ++ name.

Definition manifest_filename (depot_id manifest_id : text) : text :=
  depot_id ++ text_of "_" ++ manifest_id ++ text_of ".manifest".

Section collect_manifests.

Variables work_dir resource_path resource_files_path : text.

(** [for manifest_path in manifest_paths:] with its [break]; [target] is
    [work_dir / filename]. *)
Fixpoint search_manifest (target : text) (manifest_paths : list text)
    (files : Files) (collected_depots : list text) : Files * list text :=
  match manifest_paths with
  | [] => (files, collected_depots)
  | manifest_path :: rest =>
      if path_exists files manifest_path then
        let files :=
          if negb (bool_decide (manifest_path = target))
             && negb (path_exists files target)
          then copy2 manifest_path target files
          else files in
        (files, collected_depots ++ [target])
      else search_manifest target rest files collected_depots
  end.

(** The body of [for match in setmanifestid_pattern.finditer(content):]. *)
Definition collect_manifest (state : Files * list text)
    (ids : text * text) : Files * list text :=
  let filename := manifest_filename ids.1 ids.2 in
  let manifest_paths :=
    [in_dir work_dir filename;
     in_dir resource_path filename;
     in_dir resource_files_path filename] in
  search_manifest (in_dir work_dir filename) manifest_paths state.1 state.2.

(** The file system the loop leaves and the [collected_depots] returned. *)
Definition collect_manifests (files : Files) (ids : list (text * text))
    : Files * list text :=
  foldl collect_manifest (files, []) ids.

End collect_manifests.

End reboot_downloader.

(** ** steamctl/utils/storage.py

    The paths of this module are those of a POSIX system, where
    [pathlib.Path] is [PurePosixPath] and [os.path] is [posixpath].  On
    Windows the same source runs with [PureWindowsPath] and [ntpath], which
    keep drive letters and UNC anchors; that flavour is not modelled, and
    the properties of this module are stated for POSIX systems. *)

Module storage.

Definition slash : ascii := ascii_of_N 47.
Definition backslash : ascii := ascii_of_N 92.

(** [s.split('/')] *)
Fixpoint split_slash (s : string) : list string :=
  match s with
  | EmptyString => [EmptyString]
  | String c s' =>
      if Ascii.eqb c slash then EmptyString :: split_slash s'
      else match split_slash s' with
           | h :: t => String c h :: t
           | [] => [String c EmptyString]
           end
  end.

(** ['/'.join(parts)] *)
Definition join_slash (parts : list string) : string :=
  String.concat (String slash EmptyString) parts.

(** [s.lstrip('/')] *)
Fixpoint lstrip_slash (s : string) : string :=
  match s with
  | String c s' => if Ascii.eqb c slash then lstrip_slash s' else s
  | EmptyString => EmptyString
  end.

(** [path.replace('\\', '/')] *)
Fixpoint replace_backslash (s : string) : string :=
  match s with
  | String c s' =>
      String (if Ascii.eqb c backslash then slash else c) (replace_backslash s')
  | EmptyString => EmptyString
  end.

Definition startswith (p s : string) : bool := String.prefix p s.

Definition str_eqb (a b : string) : bool := String.eqb a b.

(** [Path(p).as_posix()] for the POSIX flavour of [pathlib]: the root is
    ['/'] (['//'] for exactly two leading slashes), empty and ['.']
    components are dropped, ['..'] components are kept, and the empty path
    prints as ['.']. *)
Definition pathlib_root (p : string) : string :=
  if negb (startswith "/" p) then EmptyString
  else if startswith "//" p && negb (startswith "///" p) then "//"
  else "/".

Definition pathlib_parts (p : string) : list string :=
  List.filter (fun x => negb (str_eqb x EmptyString) && negb (str_eqb x "."))
         (split_slash p).

Definition as_posix (p : string) : string :=
  let s := (pathlib_root p ++ join_slash (pathlib_parts p))%string in
  if str_eqb s EmptyString then "." else s.

(** [def sanitizerelpath(path)], docstring: Sanitize path to ensure it's
    relative and safe. *)
Definition sanitizerelpath (path : string) : string :=
  lstrip_slash (as_posix (replace_backslash path)).

(** *** [os.path], which is [posixpath] *)

(** [os.path.basename(p)]: what follows the last slash. *)
Definition basename (p : string) : string :=
  List.last (split_slash p) EmptyString.

Definition endswith_slash (p : string) : bool :=
  match rev (list_ascii_of_string p) with
  | c :: _ => Ascii.eqb c slash
  | [] => false
  end.

(** [os.path.join(a, b)] of [posixpath] *)
Definition join (a b : string) : string :=
  if startswith "/" b then b
  else if str_eqb a EmptyString || endswith_slash a then (a ++ b)%string
  else (a ++ "/" ++ b)%string.

(** The loop of [os.path.normpath] over the components; [new_comps] is kept
    in reverse, its last element first. *)
Fixpoint normpath_comps (initial_slashes : bool) (new_comps : list string)
    (comps : list string) : list string :=
  match comps with
  | [] => rev new_comps
  | comp :: rest =>
      if str_eqb comp EmptyString || str_eqb comp "." then
        normpath_comps initial_slashes new_comps rest
      else if negb (str_eqb comp "..")
              || (negb initial_slashes && bool_decide (new_comps = []))
              || match new_comps with
                 | top :: _ => str_eqb top ".."
                 | [] => false
                 end then
        normpath_comps initial_slashes (comp :: new_comps) rest
      else
        normpath_comps initial_slashes (List.tl new_comps) rest
  end.

(** [os.path.normpath(path)] *)
Definition normpath (path : string) : string :=
  if str_eqb path EmptyString then "." else
  let initial_slashes := startswith "/" path in
  let prefix :=
    if negb initial_slashes then EmptyString
    else if startswith "//" path && negb (startswith "///" path) then "//"
    else "/" in
  let comps := normpath_comps initial_slashes [] (split_slash path) in
  let path := (prefix ++ join_slash comps)%string in
  if str_eqb path EmptyString then "." else path.

(** [os.path.abspath(path)], [cwd] being [os.getcwd()]. *)
Definition abspath (cwd path : string) : string :=
  if startswith "/" path then normpath path else normpath (join cwd path).

(** A file [filepath] lies inside the directory [root] when the components
    of the absolute, normalised [root] are a prefix of its own. *)
Definition components (p : string) : list string :=
  List.filter (fun x => negb (str_eqb x EmptyString)) (split_slash p).

Definition inside (cwd root filepath : string) : bool :=
  bool_decide (components (abspath cwd root) `prefix_of` components filepath).

End storage.

(** ** steamctl/commands/clients.py *)

Module clients.

(** A content hash, [chunk.sha]. *)
Definition digest : Type := list byte.

(** One entry of [file_mapping.chunks]. *)
Record Chunk := {
  sha : digest;
  offset : nat;
  cb_original : nat
}.

(** What [download_to] reads of a [CDNDepotFile]. *)
Record DepotFile := {
  filename : string;
  size : nat;
  chunks : list Chunk;
  is_file : bool
}.

(** The byte counter handed over as [pbar].  [pb_bool] is the truth value
    of the object in [if pbar:], fixed when the bar is created; [pb_active]
    is false once the bar is cancelled or disabled, when [update] does
    nothing. *)
Record Pbar := {
  pb_n : nat;
  pb_bool : bool;
  pb_active : bool
}.

Definition pbar_update (pbar : option Pbar) (n : nat) : option Pbar :=
  match pbar with
  | Some p =>
      if pb_bool p && pb_active p
      then Some {| pb_n := pb_n p + n; pb_bool := pb_bool p; pb_active := pb_active p |}
      else pbar
  | None => None
  end.

(** *** The file object [fp] *)

Record FileObj := {
  fp_data : list byte;
  fp_pos : nat
}.

Definition zeros (n : nat) : list byte := replicate n "000"%byte.

Definition fp_seek (fp : FileObj) (pos : nat) : FileObj :=
  {| fp_data := fp_data fp; fp_pos := pos |}.

Definition fp_seek_end (fp : FileObj) : FileObj :=
  fp_seek fp (length (fp_data fp)).

Definition fp_tell (fp : FileObj) : nat := fp_pos fp.

(** [fp.truncate(size)]: cut or zero-extend to [size]; the position stays. *)
Definition fp_truncate (fp : FileObj) (size : nat) : FileObj :=
  {| fp_data := take size (fp_data fp) ++ zeros (size - length (fp_data fp));
     fp_pos := fp_pos fp |}.

(** [fp.read(n)]: at most [n] bytes from the position, which advances by the
    number of bytes read. *)
Definition fp_read (fp : FileObj) (n : nat) : list byte * FileObj :=
  let cur_data := take n (drop (fp_pos fp) (fp_data fp)) in
  (cur_data, fp_seek fp (fp_pos fp + length cur_data)).

(** [fp.write(data)]: overwrite from the position on, zero-filling a gap
    when the position lies past the end; a write of no bytes leaves the
    file as it is, also past the end. *)
Definition fp_write (fp : FileObj) (data : list byte) : FileObj :=
  let old := fp_data fp in
  let pos := fp_pos fp in
  let gap := match data with
             | [] => 0%nat
             | _ => (pos - length old)%nat
             end in
  {| fp_data := take pos old ++ zeros gap ++ data
                ++ drop (pos + length data) old;
     fp_pos := pos + length data |}.

Section download_to.

(** [steam.core.crypto.sha1_hash] and the transport behind
    [self.manifest.cdn_client.get_chunk], which either returns the bytes of
    the chunk of a given hash or raises. *)
Variable sha1_hash : list byte -> digest.
Variable get_chunk : digest -> option (list byte).

(** The state threaded through the chunk loop; [fetched] logs, oldest first,
    the hashes [get_chunk] was called with. *)
Record Transfer := {
  fp : FileObj;
  pbar : option Pbar;
  fetched : list digest
}.

(** One iteration of [for chunk in self.chunks]. *)
Definition download_chunk (verify : bool) (t : Transfer) (chunk : Chunk)
    : option Transfer :=
  let fetch (f : FileObj) :=
    let log := fetched t ++ [sha chunk] in
    match get_chunk (sha chunk) with
    | Some data =>
        Some {| fp := fp_write f data;
                pbar := pbar_update (pbar t) (cb_original chunk);
                fetched := log |}
    | None => None
    end in
  if verify then
    let (cur_data, f) := fp_read (fp t) (cb_original chunk) in
    if bool_decide (sha1_hash cur_data = sha chunk) then
      Some {| fp := f;
              pbar := pbar_update (pbar t) (cb_original chunk);
              fetched := fetched t |}
    else fetch (fp_seek f (offset chunk))
  else fetch (fp t).

Fixpoint download_chunks (verify : bool) (t : Transfer) (cs : list Chunk)
    : option Transfer :=
  match cs with
  | [] => Some t
  | chunk :: rest =>
      match download_chunk verify t chunk with
      | Some t' => download_chunks verify t' rest
      | None => None
      end
  end.

(** The body of [CTLDepotFile.download_to] from [open(filepath, ...)] on.
    [existing] is the content of [filepath] when [os.path.exists(filepath)],
    and [None] otherwise; the result is [None] when a chunk fetch raises.
    On a file object of this model [truncate] always yields the size asked
    for, so the allocation error is never raised. *)
Definition download_to_file (self : DepotFile) (existing : option (list byte))
    (pbar0 : option Pbar) (verify : bool) : option Transfer :=
  let verify := match existing with Some _ => verify | None => false end in
  let opened :=
    {| fp_data := if verify then default [] existing else []; fp_pos := 0 |} in
  let f := fp_seek_end opened in
  let f := if bool_decide (fp_tell f = size self) then f
           else fp_truncate f (size self) in
  let f := fp_seek f 0 in
  download_chunks verify {| fp := f; pbar := pbar0; fetched := [] |}
                  (chunks self).

End download_to.

(** The path [download_to] opens: [sanitizerelpath], [basename] when
    [no_make_dirs], [os.path.join(target, relpath)], [os.path.abspath]. *)
Definition download_to_filepath (cwd : string) (self : DepotFile)
    (target : string) (no_make_dirs : bool) : string :=
  let relpath := storage.sanitizerelpath (filename self) in
  let relpath := if no_make_dirs then storage.basename relpath else relpath in
  let relpath := storage.join target relpath in
  storage.abspath cwd relpath.

(** *** The depot-key store of [CachingCDNClient]

    A depot-key file is a JSON object from depot ids to hex keys.  What the
    store does with a file depends on its content only up to three cases:
    [json.load] and the conversion [{int(depot_id): bytes.fromhex(key)}]
    both succeed; [json.load] succeeds and the conversion raises; or
    [json.load] raises. *)
Inductive FileContent :=
  | KeysJson (keys : gmap Z (list byte))
  | BadKeys
  | BadJson.

(** The files on disk, by path. *)
Definition Disk : Type := gmap string FileContent.

(** [UserDataFile('depot_keys.json').path] *)
Definition default_keys_path : string := "~/.steamctl/depot_keys.json".

Record CachingCDNClient := {
  custom_depot_keys_file : option string;
  _depot_keys : option (gmap Z (list byte))
}.

(** [if self.custom_depot_keys_file], for [None] or a [str]. *)
Definition truthy_path (p : option string) : bool :=
  match p with Some s => truthy_str s | None => false end.

(** [if not self._depot_keys], for [None] or a [dict]. *)
Definition falsy_keys (k : option (gmap Z (list byte))) : bool :=
  match k with Some m => bool_decide (m = ∅) | None => true end.

(** [get_cached_depot_keys]: the custom file when it is given, exists and
    loads; the default store otherwise, where [read_json() or {}] turns a
    missing or undecodable file into the empty dictionary and a failing
    conversion raises. *)
Definition get_cached_depot_keys (self : CachingCDNClient) (disk : Disk)
    : option (gmap Z (list byte)) :=
  let default :=
    match disk !! default_keys_path with
    | Some (KeysJson keys) => Some keys
    | Some BadKeys => None
    | Some BadJson | None => Some ∅
    end in
  match custom_depot_keys_file self with
  | Some p =>
      if truthy_str p then
        match disk !! p with
        | Some (KeysJson keys) => Some keys
        | Some BadKeys | Some BadJson => default
        | None => default
        end
      else default
  | None => default
  end.

(** The property [depot_keys]: loaded on first use, and again whenever the
    dictionary held is empty.  The client is returned as the getter leaves
    it, also when loading raises. *)
Definition depot_keys (self : CachingCDNClient) (disk : Disk)
    : option (gmap Z (list byte)) * CachingCDNClient :=
  if falsy_keys (_depot_keys self) then
    match get_cached_depot_keys self disk with
    | Some cached =>
        (Some cached,
         {| custom_depot_keys_file := custom_depot_keys_file self;
            _depot_keys := Some cached |})
    | None =>
        (None,
         {| custom_depot_keys_file := custom_depot_keys_file self;
            _depot_keys := Some ∅ |})
    end
  else (_depot_keys self, self).

(** [self.depot_keys.update(cached)]: the entries of [cached] replace those
    of the dictionary held. *)
Definition depot_keys_update (self : CachingCDNClient)
    (cached held : gmap Z (list byte)) : CachingCDNClient :=
  {| custom_depot_keys_file := custom_depot_keys_file self;
     _depot_keys := Some (cached ∪ held) |}.

Inductive Outcome := Returned | Raised.

(** [save_cache]: the client and the disk it leaves behind. *)
Definition save_cache (self : CachingCDNClient) (disk : Disk)
    : Outcome * CachingCDNClient * Disk :=
  match get_cached_depot_keys self disk with
  | None => (Raised, self, disk)
  | Some cached_depot_keys =>
      match depot_keys self disk with
      | (None, self) => (Raised, self, disk)
      | (Some held, self) =>
          if bool_decide (cached_depot_keys = held) then (Returned, self, disk)
          else
            match depot_keys self disk with
            | (None, self) => (Raised, self, disk)
            | (Some held, self) =>
                let self := depot_keys_update self cached_depot_keys held in
                match depot_keys self disk with
                | (None, self) => (Raised, self, disk)
                | (Some out, self) =>
                    if negb (truthy_path (custom_depot_keys_file self))
                    then (Returned, self,
                          <[default_keys_path := KeysJson out]> disk)
                    else (Returned, self, disk)
                end
            end
      end
  end.

(** *** The list of content servers

    [fetch_content_servers].  The file [cs_servers.json] holds a time
    stamp, a cell id and the servers; [None] stands for a file that is
    missing, that [read_json] cannot decode, or that holds an empty object,
    all of which fail the test [if data].  Time is counted in whole
    seconds: [now] is the integer part of [time()] when the stamp is
    tested, which decides the test, an integer exceeding a real number
    exactly when it exceeds its integer part; [later] is [int(time())]
    when the new stamp is taken, after the fetch. *)
Section fetch_content_servers.

(** A content server, as its [__dict__]. *)
Variable ContentServer : Type.

(** [CDNClient.fetch_content_servers] of the [steam] library: what it
    makes of [self.servers], or [None] when it raises. *)
Variable cdn_fetch : list ContentServer -> option (list ContentServer).

Record ServerCache := {
  timestamp : Z;
  cache_cell_id : Z;
  cached_servers : list ContentServer
}.

(** The servers of the client and the cache file after the call, and the
    number of calls of the library's fetch; [None] when the fetch raises. *)
Definition fetch_content_servers (now later : Z)
    (servers : list ContentServer) (cell_id : Z) (file : option ServerCache)
    : option (list ContentServer * option ServerCache * nat) :=
  let refresh :=
    match cdn_fetch servers with
    | Some servers =>
        Some (servers,
              Some {| timestamp := later; cache_cell_id := cell_id;
                      cached_servers := servers |},
              1%nat)
    | None => None
    end in
  match file with
  | Some data =>
      if timestamp data + 300 >? now
      then Some (servers ++ cached_servers data, file, 0%nat)
      else refresh
  | None => refresh
  end.

End fetch_content_servers.

End clients.

(** ** steamctl/commands/depot/gcmds.py *)

Module gcmds.

Import clients.

(** A depot manifest: its id and its file mappings, in manifest order. *)
Record Manifest := {
  gid : Z;
  mappings : list DepotFile
}.

#[global] Instance Chunk_eq_dec : EqDecision Chunk.
Proof. solve_decision. Defined.

#[global] Instance DepotFile_eq_dec : EqDecision DepotFile.
Proof. solve_decision. Defined.

#[global] Instance Manifest_eq_dec : EqDecision Manifest.
Proof. solve_decision. Defined.

Section ManifestFileIndex.

(** [fnmatch(name, pattern)] of the standard library. *)
Variable fnmatch : string -> string -> bool.

(** [manifest.iter_files(pattern)] of the [steam] library: the mappings
    whose file name matches, in manifest order; every mapping when no
    pattern is given. *)
Definition iter_files (manifest : Manifest) (pattern : option string)
    : list DepotFile :=
  List.filter (fun f => match pattern with
                   | Some p => fnmatch (filename f) p
                   | None => true
                   end)
         (mappings manifest).

(** The tuple [(manifest, foundfile.file_mapping)]. *)
Definition Ref : Type := Manifest * DepotFile.

(** [scans] is not a field of the class: it counts the calls of
    [manifest.iter_files] made on behalf of [_locate_file_mapping]. *)
Record ManifestFileIndex := {
  manifests : list Manifest;
  _path_cache : gmap string (option Ref);
  scans : nat
}.

(** [ManifestFileIndex(manifests)] *)
Definition new_index (manifests : list Manifest) : ManifestFileIndex :=
  {| manifests := manifests; _path_cache := ∅; scans := 0 |}.

(** The [for manifest in self.manifests] loop of [_locate_file_mapping]:
    [next(manifest.iter_files(path))] raises [StopIteration] on a manifest
    without the path and the loop goes on; on a manifest with the path the
    cache entry and [ref] are assigned, and the loop goes on as well. *)
Fixpoint locate_loop (path : string) (ms : list Manifest)
    (self : ManifestFileIndex) (ref : option Ref)
    : option Ref * ManifestFileIndex :=
  match ms with
  | [] => (ref, self)
  | manifest :: rest =>
      let self := {| manifests := manifests self;
                     _path_cache := _path_cache self;
                     scans := S (scans self) |} in
      match iter_files manifest (Some path) with
      | [] => locate_loop path rest self ref
      | foundfile :: _ =>
          let ref := Some (manifest, foundfile) in
          locate_loop path rest
            {| manifests := manifests self;
               _path_cache := <[path := ref]> (_path_cache self);
               scans := scans self |}
            ref
      end
  end.

(** [_locate_file_mapping]: [ref = self._path_cache.get(path, None)] is
    [None] both for a path the cache does not hold and for a path it holds
    with the value [None]; [if ref:] is true for a tuple. *)
Definition _locate_file_mapping (self : ManifestFileIndex) (path : string)
    : option Ref * ManifestFileIndex :=
  let ref := default None (_path_cache self !! path) in
  match ref with
  | Some r => (Some r, self)
  | None =>
      let self := {| manifests := manifests self;
                     _path_cache := <[path := None]> (_path_cache self);
                     scans := scans self |} in
      locate_loop path (manifests self) self ref
  end.

(** [file_exists]: [self._locate_file_mapping(path) != None] *)
Definition file_exists (self : ManifestFileIndex) (path : string)
    : bool * ManifestFileIndex :=
  let r := _locate_file_mapping self path in
  (bool_decide (r.1 <> None), r.2).

(** The manifests that hold [path], each with the mapping [next] yields for
    it, in the order of [manifests]. *)
Definition providers (path : string) (ms : list Manifest) : list Ref :=
  omap (fun m => match iter_files m (Some path) with
                 | f :: _ => Some (m, f)
                 | [] => None
                 end) ms.

End ManifestFileIndex.

(** *** The submission loop of [cmd_depot_download]

    The function runs in the main greenlet; the cancellation monitor, which
    sets [should_cancel[0]], and the download tasks run in others.  The
    loop is therefore a transition system: [Advance] is the next step of
    the main greenlet, [Cancel] the monitor calling [cancel_download], and
    [Finish] the end of one spawned [download_to], by itself or killed,
    which gives its place in the pool back.  A program point names the
    statement about to run; [Spawning] is the main greenlet inside
    [tasks.spawn], waiting for a place in the pool. *)
Inductive Pc :=
  | OuterLoop (ms : list Manifest)
  | InnerLoop (fs : list DepotFile) (ms : list Manifest)
  | Spawning (depotfile : DepotFile) (fs : list DepotFile) (ms : list Manifest)
  | AfterSpawn (fs : list DepotFile) (ms : list Manifest)
  | AfterLoops
  | Joining
  | Finally
  | Exited (status : Z).

(** [spawned]: the files handed to [tasks.spawn], oldest first; [finished]:
    how many of these tasks have run to their end; [pbar2]: the count [n]
    of the bar labelled Files, [None] when no bars are shown. *)
Record Scheduler := {
  pc : Pc;
  should_cancel : bool;
  spawned : list DepotFile;
  finished : nat;
  pbar2 : option nat
}.

Definition goto (s : Scheduler) (p : Pc) : Scheduler :=
  {| pc := p; should_cancel := should_cancel s; spawned := spawned s;
     finished := finished s; pbar2 := pbar2 s |}.

(** [tasks = GPool(6)]: the pool holds at most six tasks that have not
    come to their end. *)
Definition pool_size : nat := 6.

Definition pool_full (s : Scheduler) : bool :=
  (pool_size <=? length (spawned s) - finished s)%nat.

(** [tasks.spawn(depotfile.download_to, ...)] once the pool has a place for
    the task: the task is added to the pool. *)
Definition spawn (s : Scheduler) (f : DepotFile) : Scheduler :=
  {| pc := pc s; should_cancel := should_cancel s;
     spawned := spawned s ++ [f];
     finished := finished s; pbar2 := pbar2 s |}.

(** [if pbar2 and not should_cancel[0]: pbar2.update(1)] *)
Definition pbar2_update (s : Scheduler) : Scheduler :=
  match pbar2 s with
  | Some n =>
      if negb (should_cancel s)
      then {| pc := pc s; should_cancel := should_cancel s;
              spawned := spawned s; finished := finished s;
              pbar2 := Some (S n) |}
      else s
  | None => s
  end.

(** One step of the main greenlet, lines 254 to 305; [None] when it is
    blocked, in [tasks.spawn] or in [tasks.join()], or has returned.
    [tasks.spawn] adds the task at once when the pool has a place for it;
    when the pool is full the call waits, other greenlets run, and the task
    is added as soon as a place is free, whatever has become of
    [should_cancel[0]] in the meantime: the flag is not read again before
    line 270. *)
Definition advance (s : Scheduler) : option Scheduler :=
  match pc s with
  | OuterLoop [] => Some (goto s AfterLoops)
  | OuterLoop (manifest :: ms) =>
      if should_cancel s then Some (goto s AfterLoops)
      else Some (goto s (InnerLoop (mappings manifest) ms))
  | InnerLoop [] ms => Some (goto s (OuterLoop ms))
  | InnerLoop (depotfile :: fs) ms =>
      if should_cancel s then Some (goto s (OuterLoop ms))
      else if negb (is_file depotfile) then Some (goto s (InnerLoop fs ms))
      else if pool_full s then Some (goto s (Spawning depotfile fs ms))
      else Some (goto (spawn s depotfile) (AfterSpawn fs ms))
  | Spawning depotfile fs ms =>
      if pool_full s then None
      else Some (goto (spawn s depotfile) (AfterSpawn fs ms))
  | AfterSpawn fs ms => Some (goto (pbar2_update s) (InnerLoop fs ms))
  | AfterLoops =>
      if negb (should_cancel s) then Some (goto s Joining)
      else Some (goto s Finally)
  | Joining =>
      if should_cancel s || bool_decide (finished s = length (spawned s))
      then Some (goto s Finally) else None
  | Finally => Some (goto s (Exited (if negb (should_cancel s) then 0 else 1)))
  | Exited _ => None
  end.

(** [cancel_download] sets the flag; it can run until the function has
    returned. *)
Definition cancel (s : Scheduler) : option Scheduler :=
  match pc s with
  | Exited _ => None
  | _ => Some {| pc := pc s; should_cancel := true; spawned := spawned s;
                 finished := finished s; pbar2 := pbar2 s |}
  end.

(** One of the spawned tasks that has not finished yet runs to its end. *)
Definition finish (s : Scheduler) : option Scheduler :=
  if bool_decide (finished s < length (spawned s))%nat
  then Some {| pc := pc s; should_cancel := should_cancel s;
               spawned := spawned s; finished := S (finished s);
               pbar2 := pbar2 s |}
  else None.

Inductive Event := Advance | Cancel | Finish.

Definition fire (e : Event) (s : Scheduler) : option Scheduler :=
  match e with
  | Advance => advance s
  | Cancel => cancel s
  | Finish => finish s
  end.

(** A run: the events in the order they happen; [None] when one of them
    cannot happen in the state reached. *)
Fixpoint run (events : list Event) (s : Scheduler) : option Scheduler :=
  match events with
  | [] => Some s
  | e :: rest =>
      match fire e s with
      | Some s' => run rest s'
      | None => None
      end
  end.

(** The state at [for manifest in manifests:], line 254; [bars] tells
    whether the progress bars were created.  The function comes to this
    line only when the manifests hold a file, see [enter_loop] below. *)
Definition start (manifests : list Manifest) (bars : bool) : Scheduler :=
  {| pc := OuterLoop manifests; should_cancel := false; spawned := [];
     finished := 0; pbar2 := if bars then Some 0%nat else None |}.

(** The main greenlet left to run on its own for [n] steps. *)
Fixpoint unwind (n : nat) (s : Scheduler) : Scheduler :=
  match n with
  | O => s
  | S n' => match advance s with
            | Some s' => unwind n' s'
            | None => s
            end
  end.

(** The counting loop of [cmd_depot_download], lines 186 to 193:
    [total_files] and [total_size] over the entries that are files. *)
Definition count_files (manifests : list Manifest) : nat * nat :=
  foldl (fun totals manifest =>
           foldl (fun totals depotfile =>
                    if negb (is_file depotfile) then totals
                    else (totals.1 + 1, totals.2 + size depotfile)%nat)
                 totals (mappings manifest))
        (0, 0)%nat manifests.

(** Lines 183 to 254: the state in which the loop is entered, or [None]
    when [if not total_files: raise SteamError] stops the function before
    it. *)
Definition enter_loop (manifests : list Manifest) (bars : bool)
    : option Scheduler :=
  if ((count_files manifests).1 =? 0)%nat then None
  else Some (start manifests bars).

(** The function left to itself: the main greenlet runs as long as it can,
    and whenever it waits, for a place in the pool or in [tasks.join()],
    one of the tasks comes to its end. *)
Definition undisturbed_step (s : Scheduler) : option Scheduler :=
  match advance s with
  | Some s' => Some s'
  | None => finish s
  end.

Fixpoint undisturbed (n : nat) (s : Scheduler) : Scheduler :=
  match n with
  | O => s
  | S n' => match undisturbed_step s with
            | Some s' => undisturbed n' s'
            | None => s
            end
  end.

Section ManifestFileIndex_index.

Variable fnmatch : string -> string -> bool.

(** [filematch.filename_raw] of the [steam] library: the name as the
    manifest stores it. *)
Variable filename_raw : DepotFile -> string.

Definition cache_put (self : ManifestFileIndex) (path : string) (ref : Ref)
    : ManifestFileIndex :=
  {| manifests := manifests self;
     _path_cache := <[path := Some ref]> (_path_cache self);
     scans := scans self |}.

(** [index(pattern, raw)]: every match of every manifest is put in the
    cache under its name, raw or not, a later match replacing an earlier
    one of the same name. *)
Definition index (self : ManifestFileIndex) (pattern : option string)
    (raw : bool) : ManifestFileIndex :=
  foldl (fun self manifest =>
           foldl (fun self filematch =>
                    let filepath := if raw then filename_raw filematch
                                    else filename filematch in
                    cache_put self filepath (manifest, filematch))
                 self (iter_files fnmatch manifest pattern))
        self (manifests self).

(** [get_file(path)]: the tuple a [CTLDepotFile] is built from, or [None]
    for the [SteamError] raised when the path is not found. *)
Definition get_file (self : ManifestFileIndex) (path : string)
    : option Ref * ManifestFileIndex :=
  _locate_file_mapping fnmatch self path.

(** A call of one of the methods of the index. *)
Inductive IndexCall :=
  | Locate (path : string)
  | Index (pattern : option string) (raw : bool).

Definition call (self : ManifestFileIndex) (c : IndexCall)
    : ManifestFileIndex :=
  match c with
  | Locate path => (_locate_file_mapping fnmatch self path).2
  | Index pattern raw => index self pattern raw
  end.

End ManifestFileIndex_index.

End gcmds.

(** ** steamctl/utils/tqdm.py *)

Module tqdm.

(** The class [fake_tqdm] used when the [tqdm] package cannot be imported,
    without what it prints.  A bar is known by its place [bar_id] among
    the objects created; [_all_bars] is the list of the module. *)
Record fake_tqdm := {
  bar_id : nat;
  n : nat;
  total : nat;
  desc : string;
  _is_closed : bool;
  _running : bool;
  _cancelled : bool;
  disable : bool
}.

Record Bars := {
  bar : fake_tqdm;
  _all_bars : list nat
}.

(** [_all_bars.remove(self)] under [if self in _all_bars]: the first
    occurrence goes. *)
Fixpoint remove_first (x : nat) (l : list nat) : list nat :=
  match l with
  | [] => []
  | y :: rest => if Nat.eqb x y then rest else y :: remove_first x rest
  end.

(** [fake_tqdm(total=..., desc=..., disable=...)]; [desc] arrives
    stripped. *)
Definition init (id total : nat) (desc : string) (disable : bool)
    (all_bars : list nat) : Bars :=
  let self := {| bar_id := id; n := 0; total := total; desc := desc;
                 _is_closed := false; _running := false;
                 _cancelled := false; disable := disable |} in
  {| bar := self;
     _all_bars := if truthy_str desc && negb disable
                  then (if bool_decide (id ∈ all_bars) then all_bars
                        else all_bars ++ [id])
                  else all_bars |}.

(** [update(n)] *)
Definition update (b : Bars) (k : nat) : Bars :=
  let self := bar b in
  if disable self || _cancelled self then b
  else {| bar := {| bar_id := bar_id self; n := n self + k;
                    total := total self; desc := desc self;
                    _is_closed := _is_closed self;
                    _running := _running self;
                    _cancelled := _cancelled self;
                    disable := disable self |};
          _all_bars := _all_bars b |}.

(** [cancel()] *)
Definition cancel (b : Bars) : Bars :=
  let self := bar b in
  if negb (_cancelled self) then
    {| bar := {| bar_id := bar_id self; n := n self;
                 total := total self; desc := desc self;
                 _is_closed := true; _running := false;
                 _cancelled := true; disable := true |};
       _all_bars := remove_first (bar_id self) (_all_bars b) |}
  else b.

(** [close()] *)
Definition close (b : Bars) : Bars :=
  let self := bar b in
  if negb (_is_closed self) then
    {| bar := {| bar_id := bar_id self; n := n self;
                 total := total self; desc := desc self;
                 _is_closed := true; _running := false;
                 _cancelled := _cancelled self;
                 disable := disable self |};
       _all_bars := remove_first (bar_id self) (_all_bars b) |}
  else b.

Inductive Call := Update (k : nat) | Cancel | Close.

Definition call (b : Bars) (c : Call) : Bars :=
  match c with
  | Update k => update b k
  | Cancel => cancel b
  | Close => close b
  end.

End tqdm.

(** * The vocabulary of the statements

    The notions the properties below are stated with, and the sample data
    they are tried on. *)

Section decoder_vocabulary.

Import reboot_downloader.


(** A descriptor of one depot with its key and one manifest. *)
Definition sample_text : text :=
  text_of "addappid(1244461, 1, " ++ dquote ++ text_of "0af3" ++ dquote
  ++ text_of ") setManifestid(1244461, " ++ dquote ++ text_of "77" ++ dquote
  ++ text_of ", 0)".

(** The depot id of a descriptor written with the Arabic-Indic digits
    U+0661 U+0662 U+0663, and the descriptor. *)
Definition arabic_123 : text := [1633; 1634; 1635].

Definition arabic_text : text :=
  text_of "addappid(" ++ arabic_123 ++ text_of ", 1, " ++ dquote
  ++ text_of "0af3" ++ dquote ++ text_of ") setManifestid(" ++ arabic_123
  ++ text_of ", " ++ dquote ++ arabic_123 ++ dquote ++ text_of ")".

(** The padding of a container: 512 zero bytes. *)
Definition zero_padding : list byte := replicate 512 "000"%byte.

End decoder_vocabulary.

Section download_vocabulary.

Import clients.

(** A file entry whose name climbs out of the output directory. *)
Definition climbing_entry : DepotFile :=
  {| filename := "../evil"; size := 0; chunks := []; is_file := true |}.

(** The chunks lie one after the other from [start] on, in list order. *)
Fixpoint contiguous (start : nat) (cs : list Chunk) : Prop :=
  match cs with
  | [] => True
  | c :: rest =>
      offset c = start /\ contiguous (start + cb_original c) rest
  end.

(** The bytes of [data] at the place of [c] have the content hash of [c]. *)
Definition chunk_matches (sha1_hash : list byte -> digest) (data : list byte)
    (c : Chunk) : Prop :=
  sha1_hash (take (cb_original c) (drop (offset c) data)) = sha c.

(** The sum of the lengths of the chunks. *)
Definition total_length (cs : list Chunk) : nat :=
  foldr (fun c n => (cb_original c + n)%nat) 0%nat cs.

(** A stand-in for SHA-1: the sum of the bytes modulo 256. *)
Definition byte_sum (d : list byte) : digest :=
  [byte_of_Z (foldr (fun b n => byte_to_Z b + n) 0 d mod 256)].

(** A transport that is down: every fetch raises. *)
Definition no_transport (_ : digest) : option (list byte) := None.

(** A file of five bytes in two chunks, and the bytes it should hold. *)
Definition five_bytes : list byte := ["a"; "b"; "c"; "d"; "e"]%byte.

Definition two_chunk_file : DepotFile :=
  {| filename := "five.bin"; size := 5;
     chunks := [ {| sha := byte_sum ["a"; "b"; "c"]%byte;
                    offset := 0; cb_original := 3 |};
                 {| sha := byte_sum ["d"; "e"]%byte;
                    offset := 3; cb_original := 2 |} ];
     is_file := true |}.

(** A byte counter in use. *)
Definition byte_bar : Pbar := {| pb_n := 0; pb_bool := true; pb_active := true |}.

(** The same counter after five bytes. *)
Definition byte_bar_5 : Pbar := {| pb_n := 5; pb_bool := true; pb_active := true |}.

(** The byte counter [after] is the counter [before] with [n] more bytes
    counted: a counter in use stands [n] higher, a counter that is falsy or
    cancelled stands where it stood, and no counter stays no counter. *)
Definition advanced_by (n : nat) (before after : option Pbar) : Prop :=
  match before, after with
  | Some p, Some q =>
      pb_bool q = pb_bool p /\ pb_active q = pb_active p
      /\ pb_n q = (if pb_bool p && pb_active p then pb_n p + n else pb_n p)%nat
  | None, None => True
  | _, _ => False
  end.

(** The entry of [two_chunk_file] with its chunks listed last first. *)
Definition swapped_chunk_file : DepotFile :=
  {| filename := "five.bin"; size := 5;
     chunks := [ {| sha := byte_sum ["d"; "e"]%byte;
                    offset := 3; cb_original := 2 |};
                 {| sha := byte_sum ["a"; "b"; "c"]%byte;
                    offset := 0; cb_original := 3 |} ];
     is_file := true |}.

End download_vocabulary.

Section key_store_vocabulary.

Import clients.

(** The keys of the custom file, and a key found during the run. *)
Definition stored_keys : gmap Z (list byte) := {[ 228980 := ["k"%byte] ]}.
Definition found_keys : gmap Z (list byte) := {[ 1244461 := ["n"%byte] ]}.

(** A client given the custom file [/tmp/depot_keys.json] that has come by
    a key the file does not hold. *)
Definition custom_client : CachingCDNClient :=
  {| custom_depot_keys_file := Some "/tmp/depot_keys.json";
     _depot_keys := Some found_keys |}.

(** A disk that holds the custom file and no default store. *)
Definition custom_disk : Disk :=
  {[ "/tmp/depot_keys.json" := KeysJson stored_keys ]}.

End key_store_vocabulary.

Section index_vocabulary.

Import clients gcmds.

(** Two manifests that both hold [readme.txt], with different mappings. *)
Definition readme_v1 : DepotFile :=
  {| filename := "readme.txt"; size := 1; chunks := []; is_file := true |}.
Definition readme_v2 : DepotFile :=
  {| filename := "readme.txt"; size := 2; chunks := []; is_file := true |}.
Definition base_manifest : Manifest := {| gid := 1; mappings := [readme_v1] |}.
Definition patch_manifest : Manifest := {| gid := 2; mappings := [readme_v2] |}.

(** On names without wildcards [fnmatch] is equality. *)
Definition fnmatch_plain : string -> string -> bool := String.eqb.

End index_vocabulary.

Section scheduler_vocabulary.

Import clients gcmds.

(** The status returned tells whether the flag was set. *)
Definition status_reflects_flag (s : Scheduler) : Prop :=
  forall status, pc s = Exited status ->
                 status = if should_cancel s then 1 else 0.

(** The main greenlet is inside [tasks.spawn]. *)
Definition in_spawn (p : Pc) : bool :=
  match p with Spawning _ _ _ => true | _ => false end.

(** It is inside [tasks.spawn] and the pool has no place for the task. *)
Definition waiting_for_slot (s : Scheduler) : bool :=
  in_spawn (pc s) && pool_full s.

(** One when the update of the Files bar that follows a spawn is still to
    come. *)
Definition pending_update (p : Pc) : nat :=
  match p with AfterSpawn _ _ => 1 | _ => 0 end.

(** The count of the Files bar never exceeds the number of tasks spawned
    and, while no cancellation is requested, equals it, the update that
    follows a spawn being one step late; no more tasks have finished than
    were spawned. *)
Definition files_bar_counts_spawns (s : Scheduler) : Prop :=
  (finished s <= length (spawned s))%nat
  /\ match pbar2 s with
     | Some n =>
         (n <= length (spawned s))%nat
         /\ (should_cancel s = false ->
             length (spawned s) = (n + pending_update (pc s))%nat)
     | None => True
     end.

(** A manifest of seven files, one more than the pool holds. *)
Definition part (k : nat) : DepotFile :=
  {| filename := "part.bin"; size := k; chunks := []; is_file := true |}.

Definition seven_parts : Manifest :=
  {| gid := 7; mappings := map part [1; 2; 3; 4; 5; 6; 7]%nat |}.

(** The run over [seven_parts] up to the call of [tasks.spawn] for the
    seventh file, which finds the pool full and waits; then the monitor sets
    the flag. *)
Definition fill_the_pool_then_cancel : list Event :=
  replicate 14 Advance ++ [Cancel].

Definition cancelled_while_waiting : Scheduler :=
  {| pc := Spawning (part 7) [] []; should_cancel := true;
     spawned := map part [1; 2; 3; 4; 5; 6]%nat; finished := 0;
     pbar2 := Some 6%nat |}.

(** One of the six tasks comes to its end, and the main greenlet runs on
    until the function has returned. *)
Definition release_then_return : list Event :=
  Finish :: replicate 6 Advance.

Definition exited_after_cancel : Scheduler :=
  {| pc := Exited 1; should_cancel := true;
     spawned := map part [1; 2; 3; 4; 5; 6; 7]%nat; finished := 1;
     pbar2 := Some 6%nat |}.

(** One manifest of one file: the file has been handed to the pool and
    counted, and its task has not finished. *)
Definition counted_before_finished : Scheduler :=
  {| pc := InnerLoop [] []; should_cancel := false;
     spawned := [readme_v1]; finished := 0; pbar2 := Some 1%nat |}.

End scheduler_vocabulary.

Section text_vocabulary.

Import reboot_downloader.

(** Every character of [s] is of class [f]. *)
Fixpoint string_forall (f : ascii -> bool) (s : string) : bool :=
  match s with
  | EmptyString => true
  | String c s' => f c && string_forall f s'
  end.

(** A non-empty text of decimal digits, those of any script. *)
Definition digits (s : text) : bool := truthy_text s && forallb re_digit s.

(** A non-empty text of the characters [0-9a-f]. *)
Definition lower_hex (s : text) : bool := truthy_text s && forallb re_hex s.









End text_vocabulary.

Section manifest_loop_vocabulary.

Import reboot_downloader.

(** A download after which no other is started: it returned the status 1,
    was interrupted from the keyboard, or saw a first Ctrl+C. *)
Definition stops (a : Attempt) : bool :=
  sigint a
  || match ending a with
     | Status result => result =? 1
     | KeyboardInterrupt => true
     | OtherException => false
     end.

(** A download that returned a status other than 1 and saw no Ctrl+C. *)
Definition clean (a : Attempt) : bool :=
  negb (sigint a)
  && match ending a with
     | Status result => negb (result =? 1)
     | _ => false
     end.

(** The elements of [l] up to and including the first that satisfies [f]. *)
Fixpoint through_first {A} (f : A -> bool) (l : list A) : list A :=
  match l with
  | [] => []
  | x :: rest => if f x then [x] else x :: through_first f rest
  end.

End manifest_loop_vocabulary.

Section transport_vocabulary.

Import clients.

(** The transport serves chunk [c]: the fetch returns bytes of the length
    and the content hash the manifest gives for it. *)
Definition served (sha1_hash : list byte -> digest)
    (get_chunk : digest -> option (list byte)) (c : Chunk) : Prop :=
  match get_chunk (sha c) with
  | Some data => length data = cb_original c /\ sha1_hash data = sha c
  | None => False
  end.

(** A transport that has the two chunks of [two_chunk_file]. *)
Definition two_chunk_transport (h : digest) : option (list byte) :=
  if bool_decide (h = byte_sum ["a"; "b"; "c"]%byte) then Some ["a"; "b"; "c"]%byte
  else if bool_decide (h = byte_sum ["d"; "e"]%byte) then Some ["d"; "e"]%byte
  else None.

(** Five bytes of which the last two are wrong. *)
Definition damaged_bytes : list byte := ["a"; "b"; "c"; "x"; "y"]%byte.

End transport_vocabulary.

Section submission_vocabulary.

Import clients gcmds.

(** The entries of the manifests that are files, in manifest order. *)
Definition files_to_download (manifests : list Manifest) : list DepotFile :=
  concat (map (fun m => List.filter is_file (mappings m)) manifests).

(** The files a program point still has before it. *)
Definition pending (p : Pc) : list DepotFile :=
  match p with
  | OuterLoop ms => files_to_download ms
  | InnerLoop fs ms | AfterSpawn fs ms =>
      List.filter is_file fs ++ files_to_download ms
  | Spawning f fs ms => f :: List.filter is_file fs ++ files_to_download ms
  | _ => []
  end.

(** The spawned files, then those passed over after a cancellation, then
    those still to come make up the files of the manifests; nothing is
    passed over before a cancellation, nor while the main greenlet is
    inside [tasks.spawn]. *)
Definition spawns_in_order (manifests : list Manifest) (s : Scheduler) : Prop :=
  exists dropped,
    spawned s ++ dropped ++ pending (pc s) = files_to_download manifests
    /\ (should_cancel s = false \/ in_spawn (pc s) = true -> dropped = []).

(** Past [tasks.join()] without a cancellation every task has finished. *)
Definition joined_all (s : Scheduler) : Prop :=
  should_cancel s = false ->
  match pc s with
  | Finally | Exited _ => finished s = length (spawned s)
  | _ => True
  end.

(** [n] more files counted by the Files bar. *)
Definition bar_add (n : nat) (bar : option nat) : option nat :=
  match bar with
  | Some k => Some (k + n)%nat
  | None => None
  end.

(** A directory entry and a manifest that lists it before a file. *)
Definition docs_dir : DepotFile :=
  {| filename := "docs"; size := 0; chunks := []; is_file := false |}.
Definition mixed_manifest : Manifest :=
  {| gid := 3; mappings := [docs_dir; readme_v1] |}.

(** The run over [mixed_manifest] after its only task has finished and the
    function has returned 0. *)
Definition exited_after_join : Scheduler :=
  {| pc := Exited 0; should_cancel := false;
     spawned := [readme_v1]; finished := 1; pbar2 := Some 1%nat |}.

End submission_vocabulary.

Section key_store_sync_vocabulary.

Import clients.

(** A client without a custom file that has come by a key, and the client
    and the disk its [save_cache] leaves when no store exists yet. *)
Definition plain_client : CachingCDNClient :=
  {| custom_depot_keys_file := None; _depot_keys := Some found_keys |}.

Definition plain_client_saved : CachingCDNClient :=
  {| custom_depot_keys_file := None; _depot_keys := Some (∅ ∪ found_keys) |}.

Definition plain_disk_saved : Disk :=
  <[default_keys_path := KeysJson (∅ ∪ found_keys)]> ∅.

End key_store_sync_vocabulary.

Section index_cache_vocabulary.

Import clients gcmds.

(** Every tuple in the cache names a manifest of the index and a mapping
    of that manifest. *)
Definition cache_sound (self : ManifestFileIndex) : Prop :=
  forall path m f,
    _path_cache self !! path = Some (Some (m, f)) ->
    m ∈ manifests self /\ f ∈ mappings m.

(** Every tuple in the cache is the one a scan for its path would find. *)
Definition cache_agrees (fnmatch : string -> string -> bool)
    (self : ManifestFileIndex) : Prop :=
  forall path r,
    _path_cache self !! path = Some (Some r) ->
    last (providers fnmatch path (manifests self)) = Some r.

(** The raw name of the sample entries is their name. *)
Definition raw_is_name : DepotFile -> string := filename.

End index_cache_vocabulary.

Section progress_vocabulary.

Import tqdm.

(** The sum of the updates made before the first [cancel()]. *)
Fixpoint counted (calls : list Call) : nat :=
  match calls with
  | [] => 0
  | Update k :: rest => k + counted rest
  | Cancel :: _ => 0
  | Close :: rest => counted rest
  end.

(** A bar labelled Data, created first. *)
Definition data_bar : Bars := init 0 100 "Data" false [].

End progress_vocabulary.

Section server_cache_vocabulary.

Import clients.

(** A fetch that finds two servers, named by numbers, whatever the client
    held. *)
Definition two_servers (_ : list nat) : option (list nat) := Some [1; 2]%nat.

End server_cache_vocabulary.

Section manifest_collection_vocabulary.

Import reboot_downloader.

(** What the search for the manifest files keeps true of the file system it
    started from, [files0], and of the pairs it may name, [ids]: the files
    of [files0] are there unchanged, every content present was present in
    [files0], and every collected path exists and is
    [work_dir / filename] for one of the pairs. *)
Definition collected_well (work_dir : text) (files0 : Files)
    (ids : list (text * text)) (state : Files * list text) : Prop :=
  files0 ⊆ state.1
  /\ (forall path content, state.1 !! path = Some content ->
        exists origin, files0 !! origin = Some content)
  /\ Forall (fun path =>
        is_Some (state.1 !! path)
        /\ exists id, id ∈ ids
             /\ path = in_dir work_dir (manifest_filename id.1 id.2))
       state.2.

End manifest_collection_vocabulary.

(** * Properties *)

(** ** Bytes *)

Lemma byte_to_Z_range (b : byte) : 0 <= byte_to_Z b < 256.
Proof.
  unfold byte_to_Z. pose proof (Byte.to_N_bounded b). lia.
Qed.

Lemma byte_of_to_Z (b : byte) : byte_of_Z (byte_to_Z b) = b.
Proof.
  unfold byte_of_Z, byte_to_Z. rewrite N2Z.id, Byte.of_to_N. reflexivity.
Qed.

Lemma byte_to_of_Z (z : Z) : 0 <= z < 256 -> byte_to_Z (byte_of_Z z) = z.
Proof.
  intros Hz. unfold byte_of_Z, byte_to_Z.
  destruct (Byte.of_N (Z.to_N z)) as [b|] eqn:E.
  - apply Byte.to_of_N in E. rewrite E. lia.
  - apply Byte.of_N_None_iff in E. lia.
Qed.

Lemma land_255 (z : Z) : Z.land z 255 = z mod 256.
Proof. change 255 with (Z.ones 8). rewrite Z.land_ones by lia. reflexivity. Qed.

Lemma log2_byte (a : Z) : 0 <= a < 256 -> Z.log2 a < 8.
Proof.
  intros Ha. destruct (Z.eq_dec a 0) as [->|Hne]; [reflexivity|].
  apply (Z.log2_lt_pow2 a 8); lia.
Qed.

Lemma lxor_byte_range (a k : Z) :
  0 <= a < 256 -> 0 <= k < 256 -> 0 <= Z.lxor a k < 256.
Proof.
  intros Ha Hk.
  assert (0 <= Z.lxor a k) as Hnn by (apply Z.lxor_nonneg; lia).
  split; [assumption|].
  destruct (Z.eq_dec (Z.lxor a k) 0) as [->|Hne]; [lia|].
  change 256 with (2 ^ 8). apply (Z.log2_lt_pow2 (Z.lxor a k) 8); [lia|].
  pose proof (Z.log2_lxor a k ltac:(lia) ltac:(lia)).
  pose proof (log2_byte a Ha). pose proof (log2_byte k Hk). lia.
Qed.

Lemma xor_byte_involutive (k : Z) (b : byte) :
  0 <= k < 256 -> xor_byte k (xor_byte k b) = b.
Proof.
  intros Hk. unfold xor_byte.
  rewrite byte_to_of_Z by (apply lxor_byte_range; [apply byte_to_Z_range|lia]).
  rewrite Z.lxor_assoc, Z.lxor_nilpotent, Z.lxor_0_r.
  apply byte_of_to_Z.
Qed.

Lemma map_xor_byte_involutive (k : Z) (d : list byte) :
  0 <= k < 256 -> map (xor_byte k) (map (xor_byte k) d) = d.
Proof.
  intros Hk. induction d as [|b d IH]; simpl; [reflexivity|].
  rewrite xor_byte_involutive, IH by assumption. reflexivity.
Qed.

Lemma u32_le_le_u32 (z : Z) :
  0 <= z < 4294967296 ->
  match le_u32 z with
  | [b0; b1; b2; b3] => u32_le b0 b1 b2 b3 = z
  | _ => False
  end.
Proof.
  intros Hz. unfold le_u32, u32_le.
  rewrite !byte_to_of_Z by (apply Z.mod_pos_bound; lia).
  Z.div_mod_to_equations. lia.
Qed.

(** ** reboot_downloader.py: the container decoder *)

Section decoder_properties.

Import reboot_downloader.

Lemma derive_xorkey_range (xorkey : Z) : 0 <= derive_xorkey xorkey < 256.
Proof.
  unfold derive_xorkey. change 0xFF with 255. rewrite land_255.
  apply Z.mod_pos_bound. lia.
Qed.

Lemma unpack_pack_III (a b c : Z) :
  0 <= a < 4294967296 -> 0 <= b < 4294967296 -> 0 <= c < 4294967296 ->
  unpack_III (pack_III a b c) = Some (a, b, c).
Proof.
  intros Ha Hb Hc.
  pose proof (u32_le_le_u32 a Ha) as Ea.
  pose proof (u32_le_le_u32 b Hb) as Eb.
  pose proof (u32_le_le_u32 c Hc) as Ec.
  unfold pack_III, le_u32 in *. simpl. rewrite Ea, Eb, Ec. reflexivity.
Qed.

Lemma st_deobfuscate_container (xorkey size verify : Z) (rest : list byte) :
  0 <= xorkey < 4294967296 -> 0 <= size < 4294967296 ->
  0 <= verify < 4294967296 ->
  st_deobfuscate (pack_III xorkey size verify ++ rest)
  = Some (map (xor_byte (derive_xorkey xorkey)) (take (Z.to_nat size) rest)).
Proof.
  intros Hx Hs Hv. unfold st_deobfuscate, slice.
  replace (take (12 - 0) (drop 0 (pack_III xorkey size verify ++ rest)))
    with (pack_III xorkey size verify) by reflexivity.
  rewrite unpack_pack_III by assumption.
  replace (12 + Z.to_nat size - 12)%nat with (Z.to_nat size) by lia.
  reflexivity.
Qed.

(** C5, as the code has it.  The key the decoder XORs the payload with is
    the low byte of [xorkey_raw XOR 0xFFFEA4C8]; for the raw key
    [0x12345678] that byte is [0xB0]. *)
Theorem xorkey_is_low_byte_of_xor (xorkey_raw size verify : Z)
    (payload : list byte) :
  0 <= xorkey_raw < 4294967296 -> 0 <= size < 4294967296 ->
  0 <= verify < 4294967296 ->
  st_deobfuscate (pack_III xorkey_raw size verify ++ payload)
  = Some (map (xor_byte (Z.land (Z.lxor xorkey_raw 0xFFFEA4C8) 0xFF))
              (take (Z.to_nat size) payload))
  /\ derive_xorkey 0x12345678 = 0xB0.
Proof.
  intros Hx Hs Hv. split.
  - apply st_deobfuscate_container; assumption.
  - reflexivity.
Qed.

Lemma xorkey_is_low_byte_of_xor_witness :
  st_deobfuscate (pack_III 0x12345678 2 0
                  ++ ["001"; "002"; "003"]%byte)
  = Some (map (xor_byte (Z.land (Z.lxor 0x12345678 0xFFFEA4C8) 0xFF))
              (take (Z.to_nat 2) ["001"; "002"; "003"]%byte))
  /\ derive_xorkey 0x12345678 = 0xB0.
Proof.
  apply (xorkey_is_low_byte_of_xor 0x12345678 2 0); lia.
Defined.

(** C5, the example as the specification gives it: the derived byte is not
    [0xA0]. *)
Lemma xorkey_example_is_not_A0 : derive_xorkey 0x12345678 <> 0xA0.
Proof. discriminate. Qed.

End decoder_properties.

(** ** reboot_downloader.py: the [addappid] directives *)

Section addappid_properties.

Import reboot_downloader.








(** *** The matcher on a directive as written *)



















End addappid_properties.

Section addappid_examples.

Import reboot_downloader.


End addappid_examples.

(** ** storage.py and clients.py: where [download_to] writes *)

Section target_path_properties.

Import storage clients.

(** C1, on the code.  [sanitizerelpath] returns the name [../evil]
    unchanged, and [download_to], called with the output directory [./out]
    from the working directory [/home/u], opens [/home/u/evil], which is not
    inside [/home/u/out]. *)
Theorem sanitizerelpath_keeps_parent_components :
  sanitizerelpath "../evil" = "../evil"
  /\ download_to_filepath "/home/u" climbing_entry "./out" false
     = "/home/u/evil"
  /\ inside "/home/u" "./out"
       (download_to_filepath "/home/u" climbing_entry "./out" false) = false.
Proof. repeat split; vm_compute; reflexivity. Qed.

End target_path_properties.

(** ** gcmds.py: [ManifestFileIndex] *)

Section index_properties.

Import clients gcmds.

Variable fnmatch : string -> string -> bool.

Lemma locate_loop_manifests (path : string) (ms : list Manifest) :
  forall self ref,
    manifests (locate_loop fnmatch path ms self ref).2 = manifests self.
Proof.
  induction ms as [|m ms IH]; intros self ref; simpl; [reflexivity|].
  destruct (iter_files fnmatch m (Some path)); rewrite IH; reflexivity.
Qed.

Lemma locate_loop_scans (path : string) (ms : list Manifest) :
  forall self ref,
    scans (locate_loop fnmatch path ms self ref).2
    = (scans self + length ms)%nat.
Proof.
  induction ms as [|m ms IH]; intros self ref; simpl; [lia|].
  destruct (iter_files fnmatch m (Some path)); rewrite IH; simpl; lia.
Qed.

Lemma locate_loop_result (path : string) (ms : list Manifest) :
  forall self ref,
    (locate_loop fnmatch path ms self ref).1
    = match last (providers fnmatch path ms) with
      | Some r => Some r
      | None => ref
      end.
Proof.
  induction ms as [|m ms IH]; intros self ref; simpl; [reflexivity|].
  destruct (iter_files fnmatch m (Some path)) as [|f fs]; rewrite IH; simpl.
  - reflexivity.
  - rewrite last_cons. destruct (last _); reflexivity.
Qed.

Lemma locate_loop_cache (path : string) (ms : list Manifest) :
  forall self ref,
    _path_cache self !! path = Some ref ->
    _path_cache (locate_loop fnmatch path ms self ref).2 !! path
    = Some (locate_loop fnmatch path ms self ref).1.
Proof.
  induction ms as [|m ms IH]; intros self ref Hc; simpl; [assumption|].
  destruct (iter_files fnmatch m (Some path)) as [|f fs]; apply IH; simpl.
  - assumption.
  - apply lookup_insert_eq.
Qed.

(** What a lookup that misses the cache returns and stores, and how many
    manifests it scans. *)
Lemma locate_miss (self : ManifestFileIndex) (path : string) :
  default None (_path_cache self !! path) = None ->
  (_locate_file_mapping fnmatch self path).1
  = last (providers fnmatch path (manifests self))
  /\ _path_cache (_locate_file_mapping fnmatch self path).2 !! path
     = Some (last (providers fnmatch path (manifests self)))
  /\ scans (_locate_file_mapping fnmatch self path).2
     = (scans self + length (manifests self))%nat.
Proof.
  intros Hmiss. unfold _locate_file_mapping. rewrite Hmiss. simpl.
  repeat split.
  - rewrite locate_loop_result. destruct (last _); reflexivity.
  - rewrite locate_loop_cache by apply lookup_insert_eq.
    rewrite locate_loop_result. destruct (last _); reflexivity.
  - rewrite locate_loop_scans. reflexivity.
Qed.

(** C2, as the code has it.  On a path the cache holds no tuple for, the
    lookup returns the pair of the last manifest, in the order supplied,
    that contains the path ([None] when none does); the cache then holds
    that result for the path; and the lookup has called [iter_files] once
    for every manifest of the index, as many times as there are manifests,
    whether or not an earlier manifest contained the path. *)
Theorem locate_returns_last_provider (self : ManifestFileIndex)
    (path : string) :
  default None (_path_cache self !! path) = None ->
  (_locate_file_mapping fnmatch self path).1
  = last (providers fnmatch path (manifests self))
  /\ _path_cache (_locate_file_mapping fnmatch self path).2 !! path
     = Some (last (providers fnmatch path (manifests self)))
  /\ scans (_locate_file_mapping fnmatch self path).2
     = (scans self + length (manifests self))%nat.
Proof. apply locate_miss. Qed.

(** A path no manifest contains is looked for in every manifest at every
    call: the [None] stored for it reads as a miss. *)
Lemma locate_absent_scans_again (self : ManifestFileIndex) (path : string) :
  default None (_path_cache self !! path) = None ->
  providers fnmatch path (manifests self) = [] ->
  let r := _locate_file_mapping fnmatch self path in
  r.1 = None
  /\ scans r.2 = (scans self + length (manifests self))%nat
  /\ manifests r.2 = manifests self
  /\ default None (_path_cache r.2 !! path) = None.
Proof.
  intros Hmiss Hnone r.
  destruct (locate_miss self path Hmiss) as (H1 & H2 & _).
  fold r in H1, H2. rewrite Hnone in H1, H2. simpl in H1, H2.
  repeat split.
  - exact H1.
  - subst r. unfold _locate_file_mapping. rewrite Hmiss. simpl.
    rewrite locate_loop_scans. reflexivity.
  - subst r. unfold _locate_file_mapping. rewrite Hmiss. simpl.
    rewrite locate_loop_manifests. reflexivity.
  - rewrite H2. reflexivity.
Qed.

(** A path found once is answered from the cache afterwards, without a
    scan. *)
Lemma locate_found_is_memoized (self : ManifestFileIndex) (path : string)
    (r : Ref) :
  (_locate_file_mapping fnmatch self path).1 = Some r ->
  let self' := (_locate_file_mapping fnmatch self path).2 in
  _locate_file_mapping fnmatch self' path = (Some r, self').
Proof.
  intros Hr self'.
  assert (_path_cache self' !! path = Some (Some r)) as Hc.
  { subst self'. revert Hr. unfold _locate_file_mapping.
    destruct (default None (_path_cache self !! path)) as [r0|] eqn:E.
    - simpl. intros [= ->].
      destruct (_path_cache self !! path) as [[r1|]|]; simpl in E;
        congruence.
    - simpl. intros Hr.
      rewrite locate_loop_cache by apply lookup_insert_eq.
      rewrite Hr. reflexivity. }
  unfold _locate_file_mapping at 1. rewrite Hc. reflexivity.
Qed.

End index_properties.

Section index_examples.

Import clients gcmds.

Lemma locate_returns_last_provider_witness :
  (_locate_file_mapping fnmatch_plain
     (new_index [base_manifest; patch_manifest]) "readme.txt").1
  = Some (patch_manifest, readme_v2)
  /\ _path_cache
       (_locate_file_mapping fnmatch_plain
          (new_index [base_manifest; patch_manifest]) "readme.txt").2
     !! "readme.txt"
     = Some (Some (patch_manifest, readme_v2))
  /\ scans (_locate_file_mapping fnmatch_plain
              (new_index [base_manifest; patch_manifest]) "readme.txt").2
     = 2%nat.
Proof.
  exact (locate_returns_last_provider fnmatch_plain
           (new_index [base_manifest; patch_manifest]) "readme.txt"
           eq_refl).
Defined.

(** C2, as the specification words it, fails: with two manifests that both
    hold [readme.txt], the lookup does not return the pair of the first. *)
Lemma locate_is_not_first_provider :
  (_locate_file_mapping fnmatch_plain
     (new_index [base_manifest; patch_manifest]) "readme.txt").1
  <> head (providers fnmatch_plain "readme.txt"
             [base_manifest; patch_manifest]).
Proof. vm_compute. discriminate. Qed.

(** C6, on the code.  A path absent from the only manifest is looked up
    twice: both calls return [None], and the second scans the manifest
    again although the first stored [None] for the path. *)
Theorem absent_path_is_scanned_twice :
  let first := _locate_file_mapping fnmatch_plain
                 (new_index [base_manifest]) "missing.txt" in
  let second := _locate_file_mapping fnmatch_plain first.2 "missing.txt" in
  first.1 = None /\ scans first.2 = 1%nat
  /\ _path_cache first.2 !! "missing.txt" = Some None
  /\ second.1 = None /\ scans second.2 = 2%nat.
Proof. repeat split; vm_compute; reflexivity. Qed.

End index_examples.

(** ** clients.py: the depot-key store *)

Section key_store_properties.

Import clients.

Lemma depot_keys_custom_file (self : CachingCDNClient) (disk : Disk) :
  custom_depot_keys_file (depot_keys self disk).2
  = custom_depot_keys_file self.
Proof.
  unfold depot_keys. destruct (falsy_keys _); [|reflexivity].
  destruct (get_cached_depot_keys self disk); reflexivity.
Qed.

(** Whatever the client, [save_cache] writes no file but the default
    store. *)
Lemma save_cache_writes_default_only (self : CachingCDNClient) (disk : Disk)
    (path : string) :
  path <> default_keys_path ->
  (save_cache self disk).2 !! path = disk !! path.
Proof.
  intros Hp. unfold save_cache.
  repeat match goal with
         | |- context [match ?x with _ => _ end] => destruct x; simpl
         | |- context [if ?x then _ else _] => destruct x; simpl
         end; try reflexivity.
  apply lookup_insert_ne. congruence.
Qed.

(** C8.  With a custom depot-key file given, [save_cache] leaves the disk
    as it found it, whether it returns or raises: the default store is
    unchanged, and so is the custom file. *)
Theorem save_cache_custom_file_writes_nothing (self : CachingCDNClient)
    (disk : Disk) (custom : string) :
  custom_depot_keys_file self = Some custom ->
  custom <> EmptyString ->
  (save_cache self disk).2 = disk
  /\ (save_cache self disk).2 !! default_keys_path = disk !! default_keys_path
  /\ (save_cache self disk).2 !! custom = disk !! custom.
Proof.
  intros Hc Hne.
  assert ((save_cache self disk).2 = disk) as ->; [|auto].
  unfold save_cache.
  destruct (get_cached_depot_keys self disk) as [cached|]; [|reflexivity].
  destruct (depot_keys self disk) as [[held|] self1] eqn:E1; [|reflexivity].
  case_bool_decide; [reflexivity|].
  destruct (depot_keys self1 disk) as [[held2|] self2] eqn:E2; [|reflexivity].
  destruct (depot_keys (depot_keys_update self2 cached held2) disk)
    as [[out|] self3] eqn:E3; [|reflexivity].
  assert (custom_depot_keys_file self3 = Some custom) as ->.
  { pose proof (depot_keys_custom_file
                  (depot_keys_update self2 cached held2) disk) as H3.
    pose proof (depot_keys_custom_file self1 disk) as H2.
    pose proof (depot_keys_custom_file self disk) as H1.
    rewrite E3 in H3. rewrite E2 in H2. rewrite E1 in H1. simpl in *.
    congruence. }
  simpl. destruct custom; [congruence|reflexivity].
Qed.

Lemma save_cache_custom_file_writes_nothing_witness :
  (save_cache custom_client custom_disk).2 = custom_disk
  /\ (save_cache custom_client custom_disk).2 !! default_keys_path
     = custom_disk !! default_keys_path
  /\ (save_cache custom_client custom_disk).2 !! "/tmp/depot_keys.json"
     = custom_disk !! "/tmp/depot_keys.json".
Proof.
  apply (save_cache_custom_file_writes_nothing custom_client custom_disk
           "/tmp/depot_keys.json").
  - reflexivity.
  - discriminate.
Defined.

End key_store_properties.

(** ** gcmds.py: the submission loop *)

Section scheduler_properties.

Import clients gcmds.

Ltac crack H :=
  repeat match type of H with
         | context [if ?b then _ else _] => destruct b eqn:?; simpl in H
         | context [match ?x with _ => _ end] => destruct x eqn:?; simpl in H
         end;
  try discriminate H; try (injection H as <-).

(** With the flag set, an event adds a task to the pool only when it wakes
    the main greenlet inside [tasks.spawn]; the main greenlet never enters
    [tasks.spawn] again. *)
Lemma fire_after_cancel (e : Event) (s s' : Scheduler) :
  should_cancel s = true -> fire e s = Some s' ->
  should_cancel s' = true
  /\ ((spawned s' = spawned s
       /\ (pc s' = pc s \/ in_spawn (pc s') = false))
      \/ (exists f fs ms, pc s = Spawning f fs ms
            /\ spawned s' = spawned s ++ [f]
            /\ in_spawn (pc s') = false)).
Proof.
  intros Hc Hf. destruct s as [p c sp fin pb]. simpl in Hc. subst c.
  destruct e; simpl in Hf.
  - unfold advance, pbar2_update in Hf. simpl in Hf.
    destruct p as [[|m ms]|[|f fs] ms|f fs ms|fs ms| | | |st]; simpl in Hf;
      try (injection Hf as <-; simpl; split; [reflexivity|left; auto]).
    + destruct (pool_full _); [discriminate|].
      injection Hf as <-. simpl. split; [reflexivity|].
      right. exists f, fs, ms. auto.
    + destruct pb; injection Hf as <-; simpl; split; auto.
    + discriminate.
  - unfold cancel in Hf. simpl in Hf.
    destruct p; try discriminate; injection Hf as <-; simpl; split; auto.
  - unfold finish in Hf. simpl in Hf.
    destruct (bool_decide _); [|discriminate].
    injection Hf as <-. simpl. split; auto.
Qed.

Lemma fire_status_reflects_flag (e : Event) (s s' : Scheduler) :
  status_reflects_flag s -> fire e s = Some s' -> status_reflects_flag s'.
Proof.
  unfold status_reflects_flag. intros Hs Hf status.
  destruct e; simpl in Hf.
  - unfold advance in Hf. crack Hf; simpl; try discriminate.
    all: intros [= <-]; destruct (should_cancel s); simpl in *; congruence.
  - unfold cancel in Hf. crack Hf; simpl; congruence.
  - unfold finish in Hf. crack Hf; simpl. apply Hs.
Qed.

Lemma fire_files_bar_counts_spawns (e : Event) (s s' : Scheduler) :
  files_bar_counts_spawns s -> fire e s = Some s' ->
  files_bar_counts_spawns s'.
Proof.
  unfold files_bar_counts_spawns. intros Hinv Hf.
  destruct s as [p c sp fin pb].
  destruct e; simpl in Hf.
  - unfold advance, pbar2_update in Hf. simpl in *.
    crack Hf; simpl in *; rewrite ?length_app; simpl;
      repeat match goal with
             | |- context [match ?x with _ => _ end] => destruct x; simpl
             end;
      intuition (try discriminate; try lia).
  - unfold cancel in Hf. simpl in *. crack Hf; simpl;
      destruct pb; intuition (try discriminate; try lia).
  - unfold finish in Hf. simpl in *. crack Hf; simpl.
    apply bool_decide_eq_true in Heqb.
    destruct pb; intuition (try discriminate; try lia).
Qed.

Lemma run_invariant (P : Scheduler -> Prop) :
  (forall e s s', P s -> fire e s = Some s' -> P s') ->
  forall events s s', P s -> run events s = Some s' -> P s'.
Proof.
  intros Hstep events. induction events as [|e events IH]; intros s s' Hs Hr;
    simpl in Hr.
  - injection Hr as <-. assumption.
  - destruct (fire e s) as [s1|] eqn:E; [|discriminate]. eauto.
Qed.

Lemma fire_keeps_files_bar (e : Event) (s s' : Scheduler) :
  is_Some (pbar2 s) -> fire e s = Some s' -> is_Some (pbar2 s').
Proof.
  intros [k Hk] Hf. destruct s as [p c sp fin pb]. simpl in Hk. subst pb.
  destruct e; simpl in Hf.
  - unfold advance, pbar2_update in Hf. simpl in Hf.
    crack Hf; simpl; eauto.
  - unfold cancel in Hf. simpl in Hf. crack Hf; simpl; eauto.
  - unfold finish in Hf. simpl in Hf. crack Hf; simpl; eauto.
Qed.

Lemma unwind_after_cancel (s : Scheduler) :
  should_cancel s = true -> status_reflects_flag s ->
  waiting_for_slot s = false ->
  pc (unwind 6 s) = Exited 1.
Proof.
  unfold status_reflects_flag, waiting_for_slot. intros Hc Hs Hw.
  destruct s as [p c sp fin pb]. simpl in *. subst c.
  destruct p as [[|m ms]|[|f fs] ms|f fs ms|fs ms| | | |st]; simpl in *;
    auto.
  - destruct ms; simpl; auto.
  - destruct ms; simpl; auto.
  - unfold advance. simpl. rewrite Hw. simpl.
    unfold pbar2_update. simpl. destruct pb; simpl; destruct fs, ms; auto.
  - unfold pbar2_update; simpl. destruct pb; simpl;
      destruct fs, ms; simpl; auto.
  - rewrite (Hs st eq_refl). auto.
Qed.

(** What a run that starts with the flag set keeps true: the pool holds the
    tasks it held, or these and the one the main greenlet was about to add
    inside [tasks.spawn]. *)
Lemma run_after_cancel (events : list Event) (s : Scheduler) :
  should_cancel s = true ->
  forall x x',
    should_cancel x = true ->
    (spawned x = spawned s /\ (pc x = pc s \/ in_spawn (pc x) = false))
    \/ (exists f fs ms, pc s = Spawning f fs ms
          /\ spawned x = spawned s ++ [f] /\ in_spawn (pc x) = false) ->
    run events x = Some x' ->
    should_cancel x' = true
    /\ ((spawned x' = spawned s /\ (pc x' = pc s \/ in_spawn (pc x') = false))
        \/ (exists f fs ms, pc s = Spawning f fs ms
              /\ spawned x' = spawned s ++ [f] /\ in_spawn (pc x') = false)).
Proof.
  intros Hc. induction events as [|e events IH]; intros x x' Hx Hinv Hr;
    simpl in Hr.
  - injection Hr as <-. auto.
  - destruct (fire e x) as [x1|] eqn:E; [|discriminate].
    destruct (fire_after_cancel e x x1 Hx E) as [Hc1 Hstep].
    apply (IH x1 x' Hc1); [|exact Hr].
    destruct Hinv as [[Hsp Hpc]|(f & fs & ms & Hs & Hsp & Hin)].
    + destruct Hstep as [[Hsp1 Hpc1]|(f & fs & ms & Hx1 & Hsp1 & Hin1)].
      * left. split; [congruence|].
        destruct Hpc1 as [Hpc1|Hpc1]; [|auto].
        destruct Hpc as [Hpc|Hpc]; [left; congruence|].
        right. rewrite Hpc1. exact Hpc.
      * destruct Hpc as [Hpc|Hpc].
        -- right. exists f, fs, ms. rewrite <- Hpc, <- Hsp. auto.
        -- rewrite Hx1 in Hpc. discriminate.
    + right. exists f, fs, ms.
      destruct Hstep as [[Hsp1 Hpc1]|(f1 & fs1 & ms1 & Hx1 & _)].
      * split; [exact Hs|]. split; [congruence|].
        destruct Hpc1 as [Hpc1|Hpc1]; [rewrite Hpc1|]; assumption.
      * rewrite Hx1 in Hin. discriminate.
Qed.

(** C7, as the code has it.  From a state of the loop in which the
    cancellation flag is set, the events to come add at most one task to
    the pool: the one for which the main greenlet was inside [tasks.spawn],
    waiting for a place, when the flag was set.  When it was not inside
    [tasks.spawn], no task at all is added.  The function can only return
    the status 1, and unless it is waiting for a place the main greenlet
    does return within six steps. *)
Theorem cancelled_loop_spawns_at_most_the_waiting_task
    (manifests : list Manifest) (bars : bool) (before after : list Event)
    (s s' : Scheduler) :
  run before (start manifests bars) = Some s ->
  should_cancel s = true ->
  run after s = Some s' ->
  (spawned s' = spawned s
   \/ exists f fs ms, pc s = Spawning f fs ms /\ spawned s' = spawned s ++ [f])
  /\ (in_spawn (pc s) = false -> spawned s' = spawned s)
  /\ (forall status, pc s' = Exited status -> status = 1)
  /\ (waiting_for_slot s = false -> pc (unwind 6 s) = Exited 1).
Proof.
  intros Hbefore Hc Hafter.
  assert (status_reflects_flag s) as Hs.
  { eapply (run_invariant status_reflects_flag);
      [apply fire_status_reflects_flag| |exact Hbefore].
    intros status. simpl. discriminate. }
  assert (status_reflects_flag s') as Hs'.
  { eapply (run_invariant status_reflects_flag);
      [apply fire_status_reflects_flag|exact Hs|exact Hafter]. }
  destruct (run_after_cancel after s Hc s s' Hc ltac:(left; auto) Hafter)
    as [Hc' Hsp].
  repeat split.
  - destruct Hsp as [[Hsp _]|(f & fs & ms & Hpc & Hsp & _)]; [left; exact Hsp|].
    right. exists f, fs, ms. auto.
  - intros Hin.
    destruct Hsp as [[Hsp _]|(f & fs & ms & Hpc & _)]; [exact Hsp|].
    rewrite Hpc in Hin. discriminate.
  - intros status Hst. rewrite (Hs' status Hst), Hc'. reflexivity.
  - intros Hw. apply unwind_after_cancel; assumption.
Qed.

(** C9, as the code has it.  At every point of a run with progress bars
    the count of the Files bar is at most the number of tasks handed to the
    pool, and as long as no cancellation is requested it is that number
    (less one between a spawn and the update that follows it), whatever
    number of tasks has finished. *)
Theorem files_bar_counts_submitted_tasks (manifests : list Manifest)
    (events : list Event) (s : Scheduler) :
  run events (start manifests true) = Some s ->
  exists n, pbar2 s = Some n
    /\ (n <= length (spawned s))%nat
    /\ (finished s <= length (spawned s))%nat
    /\ (should_cancel s = false ->
        length (spawned s) = (n + pending_update (pc s))%nat).
Proof.
  intros Hr.
  assert (files_bar_counts_spawns s) as [Hfin Hbar].
  { eapply (run_invariant files_bar_counts_spawns);
      [apply fire_files_bar_counts_spawns| |exact Hr].
    split; simpl; [lia|]. split; [lia|reflexivity]. }
  assert (is_Some (pbar2 s)) as [n Hn].
  { eapply (run_invariant (fun x => is_Some (pbar2 x)));
      [apply fire_keeps_files_bar| |exact Hr]. simpl. eauto. }
  exists n. rewrite Hn in Hbar. destruct Hbar as [H1 H2]. auto.
Qed.

End scheduler_properties.

Section scheduler_examples.

Import clients gcmds.

Lemma cancelled_loop_spawns_at_most_the_waiting_task_witness :
  (spawned exited_after_cancel = spawned cancelled_while_waiting
   \/ exists f fs ms,
        pc cancelled_while_waiting = Spawning f fs ms
        /\ spawned exited_after_cancel
           = spawned cancelled_while_waiting ++ [f])
  /\ (in_spawn (pc cancelled_while_waiting) = false ->
      spawned exited_after_cancel = spawned cancelled_while_waiting)
  /\ (forall status, pc exited_after_cancel = Exited status -> status = 1)
  /\ (waiting_for_slot cancelled_while_waiting = false ->
      pc (unwind 6 cancelled_while_waiting) = Exited 1).
Proof.
  apply (cancelled_loop_spawns_at_most_the_waiting_task
           [seven_parts] true fill_the_pool_then_cancel release_then_return);
    reflexivity.
Defined.

(** C7, as the specification words it, fails: the seventh file of
    [seven_parts] is handed to the pool after the flag was set. *)
Lemma cancelled_loop_spawns_the_waiting_task :
  run fill_the_pool_then_cancel (start [seven_parts] true)
  = Some cancelled_while_waiting
  /\ should_cancel cancelled_while_waiting = true
  /\ run release_then_return cancelled_while_waiting
     = Some exited_after_cancel
  /\ spawned exited_after_cancel
     = spawned cancelled_while_waiting ++ [part 7]
  /\ length (spawned exited_after_cancel)
     <> length (spawned cancelled_while_waiting).
Proof. repeat split. discriminate. Qed.

Lemma files_bar_counts_submitted_tasks_witness :
  exists n, pbar2 counted_before_finished = Some n
    /\ (n <= length (spawned counted_before_finished))%nat
    /\ (finished counted_before_finished
        <= length (spawned counted_before_finished))%nat
    /\ (should_cancel counted_before_finished = false ->
        length (spawned counted_before_finished)
        = (n + pending_update (pc counted_before_finished))%nat).
Proof.
  apply (files_bar_counts_submitted_tasks [base_manifest]
           [Advance; Advance; Advance]).
  reflexivity.
Defined.

(** C9, as the specification words it, fails: three steps into the run
    over one manifest of one file the Files bar shows 1 while no download
    has finished. *)
Lemma files_bar_runs_ahead_of_completions :
  run [Advance; Advance; Advance] (start [base_manifest] true)
  = Some counted_before_finished
  /\ pbar2 counted_before_finished = Some 1%nat
  /\ finished counted_before_finished = 0%nat
  /\ pbar2 counted_before_finished
     <> Some (finished counted_before_finished).
Proof. repeat split. discriminate. Qed.

End scheduler_examples.

(** ** clients.py: [download_to] over a file that is already right *)

Section download_properties.

Import clients.

Variable sha1_hash : list byte -> digest.
Variable get_chunk : digest -> option (list byte).

Lemma pbar_update_0 (p : option Pbar) : pbar_update p 0 = p.
Proof.
  destruct p as [[n b a]|]; simpl; [|reflexivity].
  destruct b, a; simpl; rewrite ?Nat.add_0_r; reflexivity.
Qed.

Lemma pbar_update_add (p : option Pbar) (a b : nat) :
  pbar_update (pbar_update p a) b = pbar_update p (a + b).
Proof.
  destruct p as [[n pb pa]|]; simpl; [|reflexivity].
  destruct pb, pa; simpl; rewrite ?Nat.add_assoc; reflexivity.
Qed.

Lemma pbar_update_advanced (p : option Pbar) (n : nat) :
  advanced_by n p (pbar_update p n).
Proof.
  destruct p as [[k pb pa]|]; simpl; [|exact I].
  destruct pb, pa; simpl; auto.
Qed.

(** A read at the running offset of the loop sees the bytes at the offset
    of the chunk, also when that offset lies past the end of the file. *)
Lemma fp_read_at_offset (data : list byte) (start n : nat) :
  fp_read {| fp_data := data; fp_pos := start `min` length data |} n
  = (take n (drop start data),
     {| fp_data := data; fp_pos := (start + n) `min` length data |}).
Proof.
  unfold fp_read, fp_seek. simpl.
  assert (drop (start `min` length data) data = drop start data) as ->.
  { destruct (Nat.le_gt_cases start (length data)).
    - rewrite Nat.min_l by assumption. reflexivity.
    - rewrite Nat.min_r by lia. rewrite !drop_ge by lia. reflexivity. }
  f_equal. f_equal. rewrite length_take, length_drop. lia.
Qed.

Lemma download_chunks_verified (data : list byte) (cs : list Chunk) :
  forall (start : nat) (p : option Pbar) (log : list digest),
    contiguous start cs ->
    Forall (chunk_matches sha1_hash data) cs ->
    download_chunks sha1_hash get_chunk true
      {| fp := {| fp_data := data; fp_pos := start `min` length data |};
         pbar := p; fetched := log |}
      cs
    = Some {| fp := {| fp_data := data;
                       fp_pos := (start + total_length cs) `min` length data |};
              pbar := pbar_update p (total_length cs);
              fetched := log |}.
Proof.
  induction cs as [|c cs IH]; intros start p log Hcont Hall;
    cbn [download_chunks total_length foldr].
  - rewrite Nat.add_0_r, pbar_update_0. reflexivity.
  - destruct Hcont as [Hoff Hcont].
    apply Forall_cons in Hall as [Hc Hall].
    unfold download_chunk. cbn [fp pbar fetched].
    rewrite fp_read_at_offset.
    unfold chunk_matches in Hc. rewrite Hoff in Hc.
    rewrite bool_decide_eq_true_2 by exact Hc.
    rewrite IH by assumption.
    rewrite pbar_update_add, Nat.add_assoc. reflexivity.
Qed.

(** C3, as the code has it.  When the chunks of the entry are listed in the
    order of their offsets, one after the other from offset 0, and the file
    exists, has the size of the entry, and holds at the offset of every
    chunk bytes with the content hash of that chunk, then [download_to]
    with [verify=True] returns without a single call of [get_chunk] and
    leaves the bytes of the file as they were, so that a further run finds
    the same file; a byte counter in use stands higher by the length of
    every chunk. *)
Theorem verified_file_fetches_nothing (self : DepotFile) (data : list byte)
    (pbar0 : option Pbar) :
  length data = size self ->
  contiguous 0 (chunks self) ->
  Forall (chunk_matches sha1_hash data) (chunks self) ->
  exists t,
    download_to_file sha1_hash get_chunk self (Some data) pbar0 true = Some t
    /\ fetched t = []
    /\ fp_data (fp t) = data
    /\ advanced_by (total_length (chunks self)) pbar0 (pbar t).
Proof.
  intros Hsize Hcont Hall. unfold download_to_file. simpl.
  unfold fp_seek_end, fp_tell, fp_seek. simpl.
  rewrite bool_decide_eq_true_2 by exact Hsize. simpl.
  change 0%nat with (0 `min` length data)%nat at 1.
  rewrite download_chunks_verified by assumption.
  eexists. repeat split. apply pbar_update_advanced.
Qed.

End download_properties.

Section download_examples.

Import clients.

Lemma verified_file_fetches_nothing_witness :
  exists t,
    download_to_file byte_sum no_transport two_chunk_file (Some five_bytes)
      (Some byte_bar) true = Some t
    /\ fetched t = []
    /\ fp_data (fp t) = five_bytes
    /\ advanced_by (total_length (chunks two_chunk_file)) (Some byte_bar)
         (pbar t).
Proof.
  apply (verified_file_fetches_nothing byte_sum no_transport two_chunk_file
           five_bytes (Some byte_bar)).
  - reflexivity.
  - simpl. auto.
  - repeat constructor.
Defined.

(** C3, as the specification words it, fails: the file holds at the offset
    of either chunk of [swapped_chunk_file] the bytes of that chunk, yet
    [download_to] with [verify=True] fetches both chunks, because it reads
    the file from its start in the order of the list and compares the bytes
    of the first chunk with the hash of the second. *)
Lemma unordered_chunks_are_fetched_again :
  length five_bytes = size swapped_chunk_file
  /\ Forall (chunk_matches byte_sum five_bytes) (chunks swapped_chunk_file)
  /\ download_to_file byte_sum two_chunk_transport swapped_chunk_file
       (Some five_bytes) (Some byte_bar) true
     = Some {| fp := {| fp_data := five_bytes; fp_pos := 3 |};
               pbar := Some byte_bar_5;
               fetched := [byte_sum ["d"; "e"]%byte;
                           byte_sum ["a"; "b"; "c"]%byte] |}.
Proof.
  split; [reflexivity|]. split.
  - repeat constructor.
  - vm_compute. reflexivity.
Qed.

End download_examples.

(** ** reboot_downloader.py: Format B against Format A *)

Section container_properties.

Import reboot_downloader.

Ltac settle b v :=
  replace b with v
    by (symmetry;
        first [apply Z.ltb_lt | apply Z.ltb_ge | apply Z.leb_le
              | apply Z.leb_gt | apply Z.eqb_eq | apply Z.eqb_neq];
        Z.div_mod_to_equations; lia).

Lemma utf8_decode_1 (c : Z) (rest : list byte) :
  0 <= c < 128 ->
  utf8_decode (byte_of_Z c :: rest) = s ← utf8_decode rest; Some (c :: s).
Proof.
  intros Hc. cbn [utf8_decode]. cbv zeta.
  rewrite byte_to_of_Z by lia.
  settle (c <? 128) true. reflexivity.
Qed.

Lemma utf8_decode_2 (c : Z) (rest : list byte) :
  128 <= c < 2048 ->
  utf8_decode (byte_of_Z (192 + c / 64) :: byte_of_Z (128 + c mod 64) :: rest)
  = s ← utf8_decode rest; Some (c :: s).
Proof.
  intros Hc. cbn [utf8_decode]. cbv zeta. unfold continuation, six_bits.
  rewrite !byte_to_of_Z by (Z.div_mod_to_equations; lia).
  settle (192 + c / 64 <? 128) false.
  settle (194 <=? 192 + c / 64) true.
  settle (192 + c / 64 <=? 223) true.
  settle (128 <=? 128 + c mod 64) true.
  settle (128 + c mod 64 <=? 191) true.
  cbn [andb].
  replace ((192 + c / 64 - 192) * 64 + (128 + c mod 64 - 128)) with c
    by (Z.div_mod_to_equations; lia).
  reflexivity.
Qed.

Lemma utf8_decode_3 (c : Z) (rest : list byte) :
  2048 <= c < 65536 -> ~ (55296 <= c <= 57343) ->
  utf8_decode (byte_of_Z (224 + c / 4096)
               :: byte_of_Z (128 + (c / 64) mod 64)
               :: byte_of_Z (128 + c mod 64) :: rest)
  = s ← utf8_decode rest; Some (c :: s).
Proof.
  intros Hc Hs. cbn [utf8_decode]. cbv zeta. unfold continuation, six_bits.
  rewrite !byte_to_of_Z by (Z.div_mod_to_equations; lia).
  settle (224 + c / 4096 <? 128) false.
  settle (194 <=? 224 + c / 4096) true.
  settle (224 + c / 4096 <=? 223) false.
  settle (224 <=? 224 + c / 4096) true.
  settle (224 + c / 4096 <=? 239) true.
  settle (128 <=? 128 + (c / 64) mod 64) true.
  settle (128 + (c / 64) mod 64 <=? 191) true.
  settle (128 <=? 128 + c mod 64) true.
  settle (128 + c mod 64 <=? 191) true.
  assert (implb (224 + c / 4096 =? 224) (160 <=? 128 + (c / 64) mod 64)
          = true) as ->.
  { destruct (Z.eqb_spec (224 + c / 4096) 224); [|reflexivity].
    simpl. apply Z.leb_le. Z.div_mod_to_equations. lia. }
  assert (implb (224 + c / 4096 =? 237) (128 + (c / 64) mod 64 <=? 159)
          = true) as ->.
  { destruct (Z.eqb_spec (224 + c / 4096) 237); [|reflexivity].
    simpl. apply Z.leb_le. Z.div_mod_to_equations. lia. }
  cbn [andb].
  replace ((224 + c / 4096 - 224) * 4096 + (128 + (c / 64) mod 64 - 128) * 64
           + (128 + c mod 64 - 128)) with c
    by (Z.div_mod_to_equations; lia).
  reflexivity.
Qed.

Lemma utf8_decode_4 (c : Z) (rest : list byte) :
  65536 <= c < 1114112 ->
  utf8_decode (byte_of_Z (240 + c / 262144)
               :: byte_of_Z (128 + (c / 4096) mod 64)
               :: byte_of_Z (128 + (c / 64) mod 64)
               :: byte_of_Z (128 + c mod 64) :: rest)
  = s ← utf8_decode rest; Some (c :: s).
Proof.
  intros Hc. cbn [utf8_decode]. cbv zeta. unfold continuation, six_bits.
  rewrite !byte_to_of_Z by (Z.div_mod_to_equations; lia).
  settle (240 + c / 262144 <? 128) false.
  settle (194 <=? 240 + c / 262144) true.
  settle (240 + c / 262144 <=? 223) false.
  settle (224 <=? 240 + c / 262144) true.
  settle (240 + c / 262144 <=? 239) false.
  settle (240 <=? 240 + c / 262144) true.
  settle (240 + c / 262144 <=? 244) true.
  settle (128 <=? 128 + (c / 4096) mod 64) true.
  settle (128 + (c / 4096) mod 64 <=? 191) true.
  settle (128 <=? 128 + (c / 64) mod 64) true.
  settle (128 + (c / 64) mod 64 <=? 191) true.
  settle (128 <=? 128 + c mod 64) true.
  settle (128 + c mod 64 <=? 191) true.
  assert (implb (240 + c / 262144 =? 240) (144 <=? 128 + (c / 4096) mod 64)
          = true) as ->.
  { destruct (Z.eqb_spec (240 + c / 262144) 240); [|reflexivity].
    simpl. apply Z.leb_le. Z.div_mod_to_equations. lia. }
  assert (implb (240 + c / 262144 =? 244) (128 + (c / 4096) mod 64 <=? 143)
          = true) as ->.
  { destruct (Z.eqb_spec (240 + c / 262144) 244); [|reflexivity].
    simpl. apply Z.leb_le. Z.div_mod_to_equations. lia. }
  cbn [andb].
  replace ((240 + c / 262144 - 240) * 262144
           + (128 + (c / 4096) mod 64 - 128) * 4096
           + (128 + (c / 64) mod 64 - 128) * 64
           + (128 + c mod 64 - 128)) with c
    by (Z.div_mod_to_equations; lia).
  reflexivity.
Qed.

(** Decoding undoes the encoding of a character, whatever follows. *)
Lemma utf8_decode_encode_char (c : Z) (bs rest : list byte) :
  utf8_encode_char c = Some bs ->
  utf8_decode (bs ++ rest) = s ← utf8_decode rest; Some (c :: s).
Proof.
  unfold utf8_encode_char.
  destruct (Z.ltb_spec c 0); [discriminate|].
  destruct (Z.ltb_spec c 128).
  { intros [= <-]. apply utf8_decode_1. lia. }
  destruct (Z.ltb_spec c 2048).
  { intros [= <-]. apply utf8_decode_2. lia. }
  destruct (Z.ltb_spec c 65536).
  { destruct (Z.leb_spec 55296 c), (Z.leb_spec c 57343); simpl;
      try discriminate; intros [= <-]; apply utf8_decode_3; lia. }
  destruct (Z.ltb_spec c 1114112); [|discriminate].
  intros [= <-]. apply utf8_decode_4. lia.
Qed.

Lemma utf8_decode_encode (s : text) (bs : list byte) :
  utf8_encode s = Some bs -> utf8_decode bs = Some s.
Proof.
  revert bs. induction s as [|c s IH]; intros bs; cbn [utf8_encode].
  - intros [= <-]. reflexivity.
  - destruct (utf8_encode_char c) as [b|] eqn:Ec; [|discriminate].
    destruct (utf8_encode s) as [r|] eqn:Er; [|discriminate].
    cbn [mbind option_bind]. intros [= <-].
    rewrite (utf8_decode_encode_char c b r Ec), (IH r eq_refl). reflexivity.
Qed.

(** The decoder strips header and mask off a container and is left with
    the payload the container was built from. *)
Lemma st_deobfuscate_payload (xorkey verify : Z) (payload : list byte) :
  0 <= xorkey < 4294967296 -> 0 <= verify < 4294967296 ->
  Z.of_nat (length payload) < 4294967296 ->
  st_deobfuscate
    (container xorkey (Z.of_nat (length payload)) verify payload)
  = Some payload.
Proof.
  intros Hx Hv Hlen. unfold container.
  rewrite st_deobfuscate_container by lia.
  rewrite Nat2Z.id, <- (length_map (xor_byte (derive_xorkey xorkey))).
  rewrite firstn_all.
  rewrite map_xor_byte_involutive by apply derive_xorkey_range.
  reflexivity.
Qed.

Variable compress : list byte -> list byte.
Variable decompress : list byte -> option (list byte).

(** C4, as the code has it.  Take a text that UTF-8 can encode, that is,
    any text without a lone surrogate; put 512 bytes of padding before its
    UTF-8 bytes, compress the whole, mask every byte of the result with the
    derived key and put in front the 12-byte header whose second field is
    the length of the payload.  When [decompress] undoes [compress] on that
    input, [get_data_local] extracts from the container the depot keys and
    manifest ids it extracts from the text itself. *)
Theorem format_b_round_trip (xorkey verify : Z) (pad : list byte)
    (content : text) (encoded : list byte) :
  utf8_encode content = Some encoded ->
  0 <= xorkey < 4294967296 -> 0 <= verify < 4294967296 ->
  length pad = 512%nat ->
  Z.of_nat (length (compress (pad ++ encoded))) < 4294967296 ->
  decompress (compress (pad ++ encoded)) = Some (pad ++ encoded) ->
  exists file,
    container_padding_inside compress xorkey verify pad content = Some file
    /\ st_content decompress file = Some content
    /\ get_data_local decompress (StFile file)
       = get_data_local decompress (LuaFile content).
Proof.
  intros Henc Hx Hv Hpad Hlen Hz.
  unfold container_padding_inside. rewrite Henc. cbn [mbind option_bind].
  eexists. split; [reflexivity|].
  assert (st_content decompress
            (container xorkey
               (Z.of_nat (length (compress (pad ++ encoded)))) verify
               (compress (pad ++ encoded)))
          = Some content) as Hc.
  { unfold st_content.
    rewrite st_deobfuscate_payload by assumption.
    cbn [mbind option_bind]. rewrite Hz. cbn [mbind option_bind].
    unfold slice_from. rewrite drop_app_length' by (symmetry; exact Hpad).
    apply utf8_decode_encode. exact Henc. }
  split; [exact Hc|].
  simpl. rewrite Hc. reflexivity.
Qed.

End container_properties.

Section container_examples.

Import reboot_downloader.

Lemma format_b_round_trip_witness :
  exists file,
    container_padding_inside zlib_store 0x12345678 0 zero_padding arabic_text
    = Some file
    /\ st_content zlib_inflate file = Some arabic_text
    /\ get_data_local zlib_inflate (StFile file)
       = get_data_local zlib_inflate (LuaFile arabic_text).
Proof.
  apply (format_b_round_trip zlib_store zlib_inflate 0x12345678 0
           zero_padding arabic_text
           (default [] (utf8_encode arabic_text))).
  - vm_compute. reflexivity.
  - lia.
  - lia.
  - reflexivity.
  - vm_compute. reflexivity.
  - vm_compute. reflexivity.
Defined.

(** C4, as the specification words it, fails: with the padding put before
    the compressed text instead of inside it, [zlib.decompress] meets a
    zero byte where the stream header should be and raises, while the text
    itself parses. *)
Lemma format_b_padding_outside_is_rejected :
  exists file,
    container_padding_outside zlib_store 0x12345678 0 zero_padding sample_text
    = Some file
    /\ get_data_local zlib_inflate (StFile file) = None
    /\ get_data_local zlib_inflate (StFile file)
       <> get_data_local zlib_inflate (LuaFile sample_text).
Proof.
  eexists. split; [vm_compute; reflexivity|].
  match goal with
  | |- ?x = None /\ _ => assert (x = None) as H by (vm_compute; reflexivity)
  end.
  split; [exact H|]. rewrite H. discriminate.
Qed.

End container_examples.

(** * Further properties of the code *)

(** ** reboot_downloader.py: what the directive parser returns *)

Section directive_properties.

Import reboot_downloader.

Lemma span_forall (f : Z -> bool) (s : text) :
  forallb f (span f s).1 = true.
Proof.
  induction s as [|c s IH]; simpl; [reflexivity|].
  destruct (f c) eqn:E; simpl; [|reflexivity].
  rewrite E, IH. reflexivity.
Qed.

Lemma plus_class (f : Z -> bool) (k : cursor) (r : text * cursor) :
  plus f k = Some r -> truthy_text r.1 && forallb f r.1 = true.
Proof.
  unfold plus. destruct (star f k).1 eqn:E; [discriminate|].
  intros [= <-]. rewrite E. simpl.
  pose proof (span_forall f k.1) as H. unfold star in E. simpl in E.
  rewrite E in H. exact H.
Qed.

Ltac step_opt H :=
  match type of H with
  | context [mbind _ ?x] =>
      let E := fresh "E" in
      destruct x eqn:E;
      cbn -[lit plus spaces addappid_key_group setmanifestid_flags_group
            text_of] in H;
      try discriminate H
  end.

Lemma addappid_key_group_hex (k : cursor) (r : text * cursor) :
  addappid_key_group k = Some r -> lower_hex r.1 = true.
Proof.
  unfold addappid_key_group. intros H.
  repeat step_opt H.
  injection H as <-. simpl. eapply plus_class. eassumption.
Qed.

Lemma match_addappid_groups (s d : text) (key : option text) (n : nat) :
  match_addappid s = Some (d, key, n) ->
  digits d = true /\ forall k, key = Some k -> lower_hex k = true.
Proof.
  unfold match_addappid. intros H.
  do 2 step_opt H.
  match goal with E : plus re_digit _ = Some _ |- _ =>
    pose proof (plus_class _ _ _ E) as Hd end.
  destruct (addappid_key_group _) as [g|] eqn:G;
    cbn -[lit plus spaces addappid_key_group text_of] in H.
  - destruct (lit (text_of ")") g.2) as [e|];
      cbn -[lit plus spaces addappid_key_group text_of] in H.
    + injection H as <- <- _. split; [exact Hd|].
      intros k [= <-]. eapply addappid_key_group_hex. eassumption.
    + destruct (lit (text_of ")") _); cbn in H; [|discriminate].
      injection H as <- <- _. split; [exact Hd|discriminate].
  - destruct (lit (text_of ")") _); cbn in H; [|discriminate].
    injection H as <- <- _. split; [exact Hd|discriminate].
Qed.

Lemma match_setmanifestid_groups (s d m : text) (n : nat) :
  match_setmanifestid s = Some (d, m, n) ->
  digits d = true /\ digits m = true.
Proof.
  unfold match_setmanifestid. intros H.
  do 6 step_opt H.
  repeat match goal with E : plus re_digit _ = Some _ |- _ =>
    apply plus_class in E end.
  destruct (setmanifestid_flags_group _ ≫= _);
    cbn -[lit plus spaces text_of] in H.
  - injection H as <- <- _. split; assumption.
  - destruct (lit (text_of ")") _); cbn in H; [|discriminate].
    injection H as <- <- _. split; assumption.
Qed.

Lemma finditer_from_all {G} (P : G -> Prop)
    (match_at : text -> option (G * nat)) :
  (forall s g n, match_at s = Some (g, n) -> P g) ->
  forall content skip g, g ∈ finditer_from match_at skip content -> P g.
Proof.
  intros Hm content.
  induction content as [|c rest IH]; intros skip g Hg; simpl in Hg.
  - apply elem_of_nil in Hg. contradiction.
  - destruct skip as [|k]; [|eauto].
    destruct (match_at (c :: rest)) as [[g0 len]|] eqn:E; [|eauto].
    apply elem_of_cons in Hg as [->|Hg]; eauto.
Qed.

Lemma foldl_addappid_step_origin (ms : list (text * option text)) :
  forall (keys : gmap text text) (d k : text),
    foldl addappid_step keys ms !! d = Some k ->
    keys !! d = Some k \/ (d, Some k) ∈ ms.
Proof.
  induction ms as [|m ms IH]; intros keys d k H; simpl in H; [left; exact H|].
  apply IH in H as [H|H]; [|right; right; exact H].
  destruct m as [depot [key|]]; unfold addappid_step in H; simpl in H;
    [|left; exact H].
  destruct (truthy_text key); [|left; exact H].
  destruct (decide (depot = d)) as [->|Hne].
  - rewrite lookup_insert_eq in H. injection H as ->. right; left; reflexivity.
  - rewrite lookup_insert_ne in H by exact Hne. left; exact H.
Qed.

(** X1.  Whatever the text, a depot id in [depot_keys] is a non-empty
    run of decimal digits, those of any script of Unicode as [\d] matches
    them all, and its key a non-empty run of the characters [0-9a-f]. *)
Theorem depot_keys_are_digits_and_hex (content depot key : text) :
  depot_keys (parse_directives content) !! depot = Some key ->
  digits depot = true /\ lower_hex key = true.
Proof.
  unfold parse_directives. simpl. intros H.
  apply foldl_addappid_step_origin in H as [H|H];
    [rewrite lookup_empty in H; discriminate|].
  apply (finditer_from_all
           (fun g => digits g.1 = true
                     /\ forall k, g.2 = Some k -> lower_hex k = true)
           match_addappid) in H.
  - destruct H as [H1 H2]. split; [exact H1|apply H2; reflexivity].
  - intros s [d k0] n E. simpl. eapply match_addappid_groups. exact E.
Qed.

Lemma depot_keys_are_digits_and_hex_witness :
  digits arabic_123 = true /\ lower_hex (text_of "0af3") = true.
Proof.
  apply (depot_keys_are_digits_and_hex arabic_text arabic_123
           (text_of "0af3")).
  vm_compute. reflexivity.
Defined.

(** X2.  Whatever the text, both members of a pair in [manifest_ids] are
    non-empty runs of decimal digits, those of any script of Unicode. *)
Theorem manifest_ids_are_digits (content depot manifest : text) :
  (depot, manifest) ∈ manifest_ids (parse_directives content) ->
  digits depot = true /\ digits manifest = true.
Proof.
  unfold parse_directives. simpl. intros H.
  apply (finditer_from_all
           (fun g => digits g.1 = true /\ digits g.2 = true)
           match_setmanifestid) in H; [exact H|].
  intros s [d m] n E. simpl. eapply match_setmanifestid_groups. exact E.
Qed.

Lemma manifest_ids_are_digits_witness :
  digits arabic_123 = true /\ digits arabic_123 = true.
Proof.
  apply (manifest_ids_are_digits arabic_text arabic_123 arabic_123).
  vm_compute. left.
Defined.

(** X3.  A [.st] file of fewer than 12 bytes makes [get_data_local] raise,
    whatever the decompressor: [struct.unpack] refuses the short header. *)
Theorem short_st_file_is_rejected
    (decompress : list byte -> option (list byte)) (content : list byte) :
  (length content < 12)%nat ->
  get_data_local decompress (StFile content) = None.
Proof.
  intros Hlen. unfold get_data_local, st_content, st_deobfuscate.
  assert (unpack_III (slice 0 12 content) = None) as ->; [|reflexivity].
  unfold slice. simpl.
  do 12 (destruct content as [|? content]; [reflexivity|]).
  simpl in Hlen. lia.
Qed.

Lemma short_st_file_is_rejected_witness :
  get_data_local zlib_inflate (StFile ["001"; "002"; "003"]%byte) = None.
Proof.
  apply (short_st_file_is_rejected zlib_inflate). simpl. lia.
Defined.

End directive_properties.

(** ** reboot_downloader.py: the loop over the manifests *)

Section manifest_loop_properties.

Import reboot_downloader.

Variable cmd_depot_download : text -> Attempt.

Lemma download_manifests_fresh (manifests : list text) :
  forall (success : bool) (log : list text),
    download_manifests cmd_depot_download manifests false success log
    = (success && forallb (fun m => clean (cmd_depot_download m)) manifests,
       existsb (fun m => stops (cmd_depot_download m)) manifests,
       log ++ through_first (fun m => stops (cmd_depot_download m)) manifests).
Proof.
  induction manifests as [|m rest IH]; intros success log; simpl.
  - rewrite andb_true_r, app_nil_r. reflexivity.
  - unfold run_steamctl_download. simpl.
    unfold clean, stops.
    destruct (cmd_depot_download m) as [[result| |] []] eqn:E; simpl;
      try destruct (result =? 1) eqn:R; simpl;
      rewrite ?andb_false_r; try reflexivity;
      rewrite IH, <- app_assoc; simpl; reflexivity.
Qed.

(** X4.  Started with [is_canceling] unset, [depotdownloadermod_add] hands
    the manifests to the downloader in order up to and including the first
    whose download returns 1, is interrupted or sees a Ctrl+C, and none
    after it; it returns [True] exactly when every download returned a
    status other than 1 undisturbed, and leaves [is_canceling] set exactly
    when some download stopped the loop. *)
Theorem depotdownloadermod_add_stops_at_first_failure
    (manifests : list text) :
  depotdownloadermod_add cmd_depot_download manifests false
  = (forallb (fun m => clean (cmd_depot_download m)) manifests,
     existsb (fun m => stops (cmd_depot_download m)) manifests,
     through_first (fun m => stops (cmd_depot_download m)) manifests).
Proof.
  unfold depotdownloadermod_add. rewrite download_manifests_fresh.
  reflexivity.
Qed.

End manifest_loop_properties.

(** ** storage.py: what [sanitizerelpath] does guarantee on POSIX *)

Section sanitizer_properties.

Import storage.

Lemma slash_char : slash = "/"%char.
Proof. reflexivity. Qed.

Lemma startswith_slash_cons (c : ascii) (s : string) :
  startswith "/" (String c s) = Ascii.eqb c slash.
Proof.
  destruct c as [[] [] [] [] [] [] [] []]; destruct s; reflexivity.
Qed.

Lemma lstrip_slash_relative (s : string) :
  startswith "/" (lstrip_slash s) = false.
Proof.
  induction s as [|c s IH]; simpl; [reflexivity|].
  destruct (Ascii.eqb c slash) eqn:E; [exact IH|].
  rewrite startswith_slash_cons. exact E.
Qed.

Lemma prefix_append (a b : string) : String.prefix a (a ++ b) = true.
Proof.
  induction a as [|c a IH]; [destruct b; reflexivity|].
  change (String.prefix (String c a) (String c (a ++ b)) = true).
  cbn [String.prefix].
  destruct (ascii_dec c c); [exact IH|congruence].
Qed.

(** X5.  On a POSIX system the name [sanitizerelpath] returns never starts
    with a slash, so [os.path.join(target, name)] never discards the
    target: the joined path starts with the text of [target]. *)
Theorem sanitizerelpath_is_relative (path target : string) :
  startswith "/" (sanitizerelpath path) = false
  /\ String.prefix target (join target (sanitizerelpath path)) = true.
Proof.
  assert (startswith "/" (sanitizerelpath path) = false) as H
    by apply lstrip_slash_relative.
  split; [exact H|].
  unfold join. rewrite H.
  destruct (_ || _); apply prefix_append.
Qed.

(** Components cut at slashes hold no slash. *)
Lemma split_slash_no_slash (s : string) :
  Forall (fun x => string_forall (fun c => negb (Ascii.eqb c slash)) x = true)
         (split_slash s).
Proof.
  induction s as [|c s IH]; simpl.
  - repeat constructor.
  - destruct (Ascii.eqb c slash) eqn:E.
    + constructor; [reflexivity|exact IH].
    + destruct (split_slash s) as [|h t].
      * repeat constructor. simpl. rewrite E. reflexivity.
      * apply Forall_cons in IH as [Hh Ht].
        constructor; [|exact Ht]. simpl. rewrite E. exact Hh.
Qed.

Lemma lstrip_slash_no_leading (x rest : string) :
  string_forall (fun c => negb (Ascii.eqb c slash)) x = true ->
  x <> EmptyString ->
  lstrip_slash (x ++ rest) = (x ++ rest)%string.
Proof.
  destruct x as [|c x]; [congruence|]. simpl. intros H _.
  apply andb_true_iff in H as [Hc _].
  destruct (Ascii.eqb c slash); [discriminate|reflexivity].
Qed.

Lemma append_empty (x : string) : (x ++ EmptyString)%string = x.
Proof.
  induction x as [|c x IH]; [reflexivity|].
  change (String c (x ++ EmptyString) = String c x). f_equal. exact IH.
Qed.

Lemma join_slash_cons (x : string) (xs : list string) :
  exists rest, join_slash (x :: xs) = (x ++ rest)%string.
Proof.
  unfold join_slash. destruct xs as [|y ys]; simpl.
  - exists EmptyString. symmetry. apply append_empty.
  - eexists. reflexivity.
Qed.

(** X6.  On a POSIX system [sanitizerelpath] returns the components of the
    path, cut at slashes and backslashes alike, other than the empty ones
    and the single dots, joined by slashes; components [..] are kept.  A
    path without any such component gives the empty string when it starts
    with a slash or backslash, and a single dot otherwise. *)
Theorem sanitizerelpath_joins_components (path : string) :
  sanitizerelpath path
  = match pathlib_parts (replace_backslash path) with
    | [] => if startswith "/" (replace_backslash path) then EmptyString
            else "."
    | parts => join_slash parts
    end.
Proof.
  unfold sanitizerelpath, as_posix.
  set (q := replace_backslash path).
  assert (Forall (fun x =>
                    string_forall (fun c => negb (Ascii.eqb c slash)) x = true
                    /\ x <> EmptyString)
                 (pathlib_parts q)) as Hparts.
  { unfold pathlib_parts. apply List.Forall_forall. intros x Hx.
    apply List.filter_In in Hx as [Hin Hf].
    split.
    - pose proof (split_slash_no_slash q) as H.
      rewrite List.Forall_forall in H. apply H. exact Hin.
    - apply andb_true_iff in Hf as [Hf _]. intros ->. discriminate. }
  destruct (pathlib_parts q) as [|x xs] eqn:E.
  - unfold pathlib_root, join_slash. simpl.
    destruct (startswith "/" q); simpl; [|reflexivity].
    destruct (startswith "//" q && negb (startswith "///" q)); reflexivity.
  - apply Forall_cons in Hparts as [[Hx Hne] _].
    destruct (join_slash_cons x xs) as [rest Hj]. rewrite Hj.
    assert (lstrip_slash (x ++ rest) = (x ++ rest)%string) as Hl
      by (apply lstrip_slash_no_leading; assumption).
    assert (forall r : string,
              (if str_eqb (r ++ (x ++ rest)) EmptyString then "."
               else r ++ (x ++ rest))%string = (r ++ (x ++ rest))%string) as Hs.
    { intros r. destruct (str_eqb _ _) eqn:Q; [|reflexivity].
      apply String.eqb_eq in Q.
      destruct r, x; first [congruence|inversion Q]. }
    rewrite Hs. unfold pathlib_root.
    destruct (startswith "/" q); simpl; [|exact Hl].
    destruct (startswith "//" q && negb (startswith "///" q)); simpl;
      rewrite slash_char in *; change (Ascii.eqb "/" "/") with true; simpl;
      exact Hl.
Qed.

End sanitizer_properties.

(** ** clients.py: what [download_to] leaves on disk *)

Section download_result_properties.

Import clients.

Variable sha1_hash : list byte -> digest.
Variable get_chunk : digest -> option (list byte).

Lemma fp_write_inside (D d : list byte) (start : nat) :
  (start <= length D)%nat ->
  fp_write {| fp_data := D; fp_pos := start |} d
  = {| fp_data := take start D ++ d ++ drop (start + length d) D;
       fp_pos := start + length d |}.
Proof.
  intros H. unfold fp_write. simpl.
  replace (start - length D)%nat with 0%nat by lia.
  destruct d; reflexivity.
Qed.

Lemma overwrite_length (D d : list byte) (start : nat) :
  (start + length d <= length D)%nat ->
  length (take start D ++ d ++ drop (start + length d) D) = length D.
Proof.
  intros H. rewrite !length_app, length_take, length_drop. lia.
Qed.

Lemma overwrite_prefix (D d : list byte) (start : nat) :
  (start <= length D)%nat ->
  take start (take start D ++ d ++ drop (start + length d) D) = take start D.
Proof.
  intros H. rewrite take_app_length'; [reflexivity|].
  rewrite length_take. lia.
Qed.

Lemma overwrite_chunk (D d : list byte) (start : nat) :
  (start <= length D)%nat ->
  take (length d) (drop start (take start D ++ d ++ drop (start + length d) D))
  = d.
Proof.
  intros H. rewrite drop_app_length' by (rewrite length_take; lia).
  rewrite take_app_length. reflexivity.
Qed.

(** One chunk: whether it is verified or fetched, the bytes before it stay,
    the length of the file stays, and the chunk is right afterwards. *)
Lemma download_chunk_right (verify : bool) (D : list byte) (start : nat)
    (p : option Pbar) (log : list digest) (c : Chunk) :
  offset c = start ->
  (start + cb_original c <= length D)%nat ->
  served sha1_hash get_chunk c ->
  exists D1 log1,
    download_chunk sha1_hash get_chunk verify
      {| fp := {| fp_data := D; fp_pos := start |}; pbar := p; fetched := log |}
      c
    = Some {| fp := {| fp_data := D1; fp_pos := start + cb_original c |};
              pbar := pbar_update p (cb_original c);
              fetched := log1 |}
    /\ length D1 = length D
    /\ take start D1 = take start D
    /\ chunk_matches sha1_hash D1 c.
Proof.
  intros Hoff Hfit Hserved. unfold served in Hserved.
  destruct (get_chunk (sha c)) as [d|] eqn:G; [|contradiction].
  destruct Hserved as [Hlen Hsha].
  assert (download_chunk sha1_hash get_chunk false
            {| fp := {| fp_data := D; fp_pos := start |};
               pbar := p; fetched := log |} c
          = Some {| fp := {| fp_data := take start D ++ d
                                        ++ drop (start + length d) D;
                             fp_pos := start + cb_original c |};
                    pbar := pbar_update p (cb_original c);
                    fetched := log ++ [sha c] |}) as Hfetch.
  { unfold download_chunk. cbn [fp pbar fetched]. rewrite G.
    rewrite fp_write_inside by lia. rewrite Hlen. reflexivity. }
  assert (chunk_matches sha1_hash
            (take start D ++ d ++ drop (start + length d) D) c) as Hm.
  { unfold chunk_matches. rewrite Hoff, <- Hlen.
    rewrite overwrite_chunk by lia. exact Hsha. }
  destruct verify.
  - unfold download_chunk. cbn [fp pbar fetched].
    unfold fp_read. cbn [fp_data fp_pos].
    case_bool_decide as Hhash.
    + exists D, log. unfold fp_seek. cbn [fp_data fp_pos].
      rewrite length_take, length_drop.
      replace (start + cb_original c `min` (length D - start))%nat
        with (start + cb_original c)%nat by lia.
      repeat split. unfold chunk_matches. rewrite Hoff. exact Hhash.
    + unfold download_chunk in Hfetch. cbn [fp pbar fetched] in Hfetch.
      unfold fp_seek. cbn [fp_data fp_pos]. rewrite Hoff.
      eexists _, _. split; [exact Hfetch|].
      repeat split; [apply overwrite_length|apply overwrite_prefix|exact Hm];
        lia.
  - eexists _, _. split; [exact Hfetch|].
    repeat split; [apply overwrite_length|apply overwrite_prefix|exact Hm];
      lia.
Qed.

Lemma total_length_cons (c : Chunk) (cs : list Chunk) :
  total_length (c :: cs) = (cb_original c + total_length cs)%nat.
Proof. reflexivity. Qed.

Lemma download_chunks_right (verify : bool) (cs : list Chunk) :
  forall (start : nat) (D : list byte) (p : option Pbar) (log : list digest),
    contiguous start cs ->
    (start + total_length cs <= length D)%nat ->
    Forall (served sha1_hash get_chunk) cs ->
    exists t,
      download_chunks sha1_hash get_chunk verify
        {| fp := {| fp_data := D; fp_pos := start |};
           pbar := p; fetched := log |} cs = Some t
      /\ length (fp_data (fp t)) = length D
      /\ take start (fp_data (fp t)) = take start D
      /\ Forall (chunk_matches sha1_hash (fp_data (fp t))) cs
      /\ pbar t = pbar_update p (total_length cs).
Proof.
  induction cs as [|c cs IH]; intros start D p log Hcont Hfit Hserved;
    cbn [download_chunks].
  - eexists. split; [reflexivity|]. simpl.
    rewrite pbar_update_0. repeat split. constructor.
  - destruct Hcont as [Hoff Hcont].
    apply Forall_cons in Hserved as [Hc Hserved].
    rewrite total_length_cons in *.
    destruct (download_chunk_right verify D start p log c Hoff ltac:(lia) Hc)
      as (D1 & log1 & Hstep & Hlen1 & Hpre1 & Hm1).
    rewrite Hstep.
    destruct (IH (start + cb_original c)%nat D1
                 (pbar_update p (cb_original c)) log1 Hcont
                 ltac:(lia) Hserved)
      as (t & Hrun & Hlen & Hpre & Hall & Hbar).
    exists t. split; [exact Hrun|].
    split; [congruence|].
    assert (take start (fp_data (fp t)) = take start D) as Hpre'.
    { rewrite <- Hpre1.
      replace start with (start `min` (start + cb_original c))%nat by lia.
      rewrite <- !take_take, Hpre. reflexivity. }
    split; [exact Hpre'|]. split.
    + constructor; [|exact Hall].
      unfold chunk_matches in *. rewrite Hoff in *.
      rewrite take_drop_commute, Hpre, <- take_drop_commute. exact Hm1.
    + rewrite Hbar, pbar_update_add. reflexivity.
Qed.


Lemma opened_file_has_size (self : DepotFile) (D0 : list byte) :
  exists D,
    fp_seek
      (if bool_decide
            (fp_tell (fp_seek_end {| fp_data := D0; fp_pos := 0 |})
             = size self)
       then fp_seek_end {| fp_data := D0; fp_pos := 0 |}
       else fp_truncate (fp_seek_end {| fp_data := D0; fp_pos := 0 |})
                        (size self))
      0
    = {| fp_data := D; fp_pos := 0 |}
    /\ length D = size self.
Proof.
  unfold fp_seek_end, fp_tell, fp_seek, fp_truncate. simpl.
  case_bool_decide as H; simpl; eexists; split; try reflexivity; [exact H|].
  unfold zeros. rewrite length_app, length_take, length_replicate. lia.
Qed.

Lemma download_to_file_right (self : DepotFile)
    (existing : option (list byte)) (pbar0 : option Pbar) (verify : bool) :
  contiguous 0 (chunks self) ->
  total_length (chunks self) = size self ->
  Forall (served sha1_hash get_chunk) (chunks self) ->
  exists t,
    download_to_file sha1_hash get_chunk self existing pbar0 verify = Some t
    /\ length (fp_data (fp t)) = size self
    /\ Forall (chunk_matches sha1_hash (fp_data (fp t))) (chunks self)
    /\ pbar t = pbar_update pbar0 (size self).
Proof.
  intros Hcont Htotal Hserved. unfold download_to_file. cbv zeta.
  set (v := match existing with Some _ => verify | None => false end).
  destruct (opened_file_has_size self (if v then default [] existing else []))
    as (D & Hf & Hlen).
  rewrite Hf.
  assert (0 + total_length (chunks self) <= length D)%nat as Hfit by lia.
  destruct (download_chunks_right v (chunks self) 0 D pbar0 [] Hcont
              Hfit Hserved) as (t & Hrun & Hl & _ & Hall & Hbar).
  exists t. rewrite <- Htotal at 2.
  repeat split; try assumption. congruence.
Qed.

Lemma download_to_file_verified (self : DepotFile) (data : list byte)
    (pbar0 : option Pbar) :
  length data = size self ->
  contiguous 0 (chunks self) ->
  Forall (chunk_matches sha1_hash data) (chunks self) ->
  exists t,
    download_to_file sha1_hash get_chunk self (Some data) pbar0 true = Some t
    /\ fetched t = []
    /\ fp_data (fp t) = data.
Proof.
  intros Hsize Hcont Hall. unfold download_to_file. simpl.
  unfold fp_seek_end, fp_tell, fp_seek. simpl.
  rewrite bool_decide_eq_true_2 by exact Hsize. simpl.
  change 0%nat with (0 `min` length data)%nat at 1.
  rewrite download_chunks_verified by assumption.
  eexists. repeat split.
Qed.

(** X7.  When the chunks of an entry lie one after the other, their lengths
    add up to the size of the entry and the transport serves each of them,
    [download_to] returns, whatever was on disk and whether or not it
    verifies, and leaves a file of the size of the entry in which the bytes
    at the place of every chunk have the content hash of that chunk; a byte
    counter in use stands higher by the size of the entry. *)
Theorem download_to_makes_file_right (self : DepotFile)
    (existing : option (list byte)) (pbar0 : option Pbar) (verify : bool) :
  contiguous 0 (chunks self) ->
  total_length (chunks self) = size self ->
  Forall (served sha1_hash get_chunk) (chunks self) ->
  exists t,
    download_to_file sha1_hash get_chunk self existing pbar0 verify = Some t
    /\ length (fp_data (fp t)) = size self
    /\ Forall (chunk_matches sha1_hash (fp_data (fp t))) (chunks self)
    /\ advanced_by (size self) pbar0 (pbar t).
Proof.
  intros Hcont Htotal Hserved.
  destruct (download_to_file_right self existing pbar0 verify
              Hcont Htotal Hserved) as (t & Hrun & Hlen & Hall & Hbar).
  exists t. repeat split; try assumption.
  rewrite Hbar. apply pbar_update_advanced.
Qed.

(** X8.  Under the same conditions a run of [download_to] followed by a
    second run with [verify=True] on the file the first one left makes, in
    the second run, no call of [get_chunk] and leaves the file as the first
    run left it. *)
Theorem download_to_twice_fetches_once (self : DepotFile)
    (existing : option (list byte)) (pbar0 pbar1 : option Pbar)
    (verify : bool) :
  contiguous 0 (chunks self) ->
  total_length (chunks self) = size self ->
  Forall (served sha1_hash get_chunk) (chunks self) ->
  exists t t',
    download_to_file sha1_hash get_chunk self existing pbar0 verify = Some t
    /\ download_to_file sha1_hash get_chunk self (Some (fp_data (fp t)))
         pbar1 true = Some t'
    /\ fetched t' = []
    /\ fp_data (fp t') = fp_data (fp t).
Proof.
  intros Hcont Htotal Hserved.
  destruct (download_to_file_right self existing pbar0 verify
              Hcont Htotal Hserved) as (t & Hrun & Hlen & Hall & _).
  destruct (download_to_file_verified self (fp_data (fp t)) pbar1
              Hlen Hcont Hall) as (t' & Hrun' & Hlog & Hdata).
  exists t, t'. auto.
Qed.

Lemma download_chunks_fresh (size : nat) (cs : list Chunk) :
  forall (datas : list (list byte)) (W : list byte) (p : option Pbar)
         (log : list digest),
    Forall2 (fun c d => get_chunk (sha c) = Some d) cs datas ->
    download_chunks sha1_hash get_chunk false
      {| fp := {| fp_data := W ++ drop (length W) (zeros size);
                  fp_pos := length W |};
         pbar := p; fetched := log |} cs
    = Some {| fp := {| fp_data := (W ++ concat datas)
                                  ++ drop (length (W ++ concat datas))
                                          (zeros size);
                       fp_pos := length (W ++ concat datas) |};
              pbar := pbar_update p (total_length cs);
              fetched := log ++ map sha cs |}.
Proof.
  induction cs as [|c cs IH]; intros datas W p log Hall;
    cbn [download_chunks].
  - apply Forall2_nil_inv_l in Hall as ->. simpl.
    rewrite !app_nil_r, pbar_update_0. reflexivity.
  - apply Forall2_cons_inv_l in Hall as (d & datas' & Hd & Hall & ->).
    unfold download_chunk. cbn [fp pbar fetched]. rewrite Hd.
    rewrite fp_write_inside by (rewrite length_app; lia).
    rewrite take_app_length.
    rewrite drop_app_ge by lia.
    replace (length W + length d - length W)%nat with (length d) by lia.
    rewrite drop_drop. cbn [zeros replicate app].
    replace (W ++ d ++ drop (length W + length d) (zeros size))
      with ((W ++ d) ++ drop (length (W ++ d)) (zeros size))
      by (rewrite length_app, <- app_assoc; reflexivity).
    replace (length W + length d)%nat with (length (W ++ d))
      by (rewrite length_app; reflexivity).
    rewrite (IH datas' (W ++ d)) by exact Hall.
    rewrite total_length_cons, pbar_update_add. cbn [concat map].
    rewrite !app_assoc, <- (app_assoc log). reflexivity.
Qed.

Lemma fresh_file_is_zeros (size : nat) :
  fp_seek
    (if bool_decide
          (fp_tell (fp_seek_end {| fp_data := []; fp_pos := 0 |}) = size)
     then fp_seek_end {| fp_data := []; fp_pos := 0 |}
     else fp_truncate (fp_seek_end {| fp_data := []; fp_pos := 0 |}) size)
    0
  = {| fp_data := zeros size; fp_pos := 0 |}.
Proof.
  unfold fp_seek_end, fp_tell, fp_seek, fp_truncate. simpl.
  case_bool_decide as H; simpl; [rewrite <- H; reflexivity|].
  rewrite Nat.sub_0_r, take_nil. reflexivity.
Qed.

(** X9.  When the file does not exist, or [verify] is off, [download_to]
    asks the transport for every chunk, in the order of the list, and
    writes what it receives back to back from the start of the file, the
    offsets of the chunks playing no part; what remains of the space
    allocated for the entry stays zero. *)
Theorem fresh_download_writes_chunks_back_to_back (self : DepotFile)
    (existing : option (list byte)) (pbar0 : option Pbar) (verify : bool)
    (datas : list (list byte)) :
  existing = None \/ verify = false ->
  Forall2 (fun c d => get_chunk (sha c) = Some d) (chunks self) datas ->
  download_to_file sha1_hash get_chunk self existing pbar0 verify
  = Some {| fp := {| fp_data := concat datas
                                ++ zeros (size self - length (concat datas));
                     fp_pos := length (concat datas) |};
            pbar := pbar_update pbar0 (total_length (chunks self));
            fetched := map sha (chunks self) |}.
Proof.
  intros Hfresh Hall. unfold download_to_file. cbv zeta.
  assert (match existing with Some _ => verify | None => false end = false)
    as -> by (destruct Hfresh as [->| ->]; [|destruct existing]; reflexivity).
  rewrite fresh_file_is_zeros.
  etrans; [exact (download_chunks_fresh (size self) (chunks self) datas []
                    pbar0 [] Hall)|].
  simpl. unfold zeros. rewrite drop_replicate. reflexivity.
Qed.

Lemma download_chunks_fails (cs : list Chunk) :
  forall t, Exists (fun c => get_chunk (sha c) = None) cs ->
            download_chunks sha1_hash get_chunk false t cs = None.
Proof.
  induction cs as [|c cs IH]; intros t Hex; cbn [download_chunks].
  - apply Exists_nil in Hex. contradiction.
  - unfold download_chunk at 1.
    destruct (get_chunk (sha c)) as [d|] eqn:G; [|reflexivity].
    apply Exists_cons in Hex as [Hc|Hex]; [congruence|].
    apply IH. exact Hex.
Qed.

(** X10.  When the file does not exist, or [verify] is off, and the fetch
    of some chunk of the entry fails, [download_to] raises. *)
Theorem fresh_download_raises_on_failed_fetch (self : DepotFile)
    (existing : option (list byte)) (pbar0 : option Pbar) (verify : bool) :
  existing = None \/ verify = false ->
  Exists (fun c => get_chunk (sha c) = None) (chunks self) ->
  download_to_file sha1_hash get_chunk self existing pbar0 verify = None.
Proof.
  intros Hfresh Hex. unfold download_to_file.
  assert (match existing with Some _ => verify | None => false end = false)
    as -> by (destruct Hfresh as [->| ->]; [|destruct existing]; reflexivity).
  apply download_chunks_fails. exact Hex.
Qed.

End download_result_properties.

Section download_result_examples.

Import clients.

Lemma download_to_makes_file_right_witness :
  exists t,
    download_to_file byte_sum two_chunk_transport two_chunk_file
      (Some damaged_bytes) (Some byte_bar) true = Some t
    /\ length (fp_data (fp t)) = size two_chunk_file
    /\ Forall (chunk_matches byte_sum (fp_data (fp t))) (chunks two_chunk_file)
    /\ advanced_by (size two_chunk_file) (Some byte_bar) (pbar t).
Proof.
  apply (download_to_makes_file_right byte_sum two_chunk_transport
           two_chunk_file (Some damaged_bytes) (Some byte_bar) true).
  - simpl. auto.
  - reflexivity.
  - constructor; [vm_compute; auto|].
    constructor; [vm_compute; auto|constructor].
Defined.

Lemma download_to_twice_fetches_once_witness :
  exists t t',
    download_to_file byte_sum two_chunk_transport two_chunk_file
      (Some damaged_bytes) (Some byte_bar) true = Some t
    /\ download_to_file byte_sum two_chunk_transport two_chunk_file
         (Some (fp_data (fp t))) (Some byte_bar) true = Some t'
    /\ fetched t' = []
    /\ fp_data (fp t') = fp_data (fp t).
Proof.
  apply (download_to_twice_fetches_once byte_sum two_chunk_transport
           two_chunk_file (Some damaged_bytes) (Some byte_bar) (Some byte_bar)
           true).
  - simpl. auto.
  - reflexivity.
  - constructor; [vm_compute; auto|].
    constructor; [vm_compute; auto|constructor].
Defined.

Lemma fresh_download_writes_chunks_back_to_back_witness :
  download_to_file byte_sum two_chunk_transport two_chunk_file None
    (Some byte_bar) true
  = Some {| fp := {| fp_data := five_bytes ++ zeros 0; fp_pos := 5 |};
            pbar := pbar_update (Some byte_bar) 5;
            fetched := map sha (chunks two_chunk_file) |}.
Proof.
  apply (fresh_download_writes_chunks_back_to_back byte_sum
           two_chunk_transport two_chunk_file None (Some byte_bar) true
           [["a"; "b"; "c"]; ["d"; "e"]]%byte).
  - left. reflexivity.
  - constructor; [reflexivity|]. constructor; [reflexivity|constructor].
Defined.

Lemma fresh_download_raises_on_failed_fetch_witness :
  download_to_file byte_sum no_transport two_chunk_file None
    (Some byte_bar) true = None.
Proof.
  apply (fresh_download_raises_on_failed_fetch byte_sum no_transport
           two_chunk_file None (Some byte_bar) true).
  - left. reflexivity.
  - left. reflexivity.
Defined.

End download_result_examples.

(** ** gcmds.py: which files the loop hands to the pool *)

Section submission_properties.

Import clients gcmds.

Ltac open_step H :=
  repeat match type of H with
         | context [if ?b then _ else _] => destruct b eqn:?; simpl in H
         | context [match ?x with _ => _ end] => destruct x eqn:?; simpl in H
         end;
  try discriminate H; try (injection H as <-).

Lemma run_reachable (P : Scheduler -> Prop) :
  (forall e s s', P s -> fire e s = Some s' -> P s') ->
  forall events s s', P s -> run events s = Some s' -> P s'.
Proof.
  intros Hstep events. induction events as [|e events IH]; intros s s' Hs Hr;
    simpl in Hr.
  - injection Hr as <-. assumption.
  - destruct (fire e s) as [s1|] eqn:E; [|discriminate]. eauto.
Qed.

Lemma files_to_download_cons (m : Manifest) (ms : list Manifest) :
  files_to_download (m :: ms)
  = List.filter is_file (mappings m) ++ files_to_download ms.
Proof. reflexivity. Qed.

Lemma fire_spawns_in_order (manifests : list Manifest) (e : Event)
    (s s' : Scheduler) :
  spawns_in_order manifests s -> fire e s = Some s' ->
  spawns_in_order manifests s'.
Proof.
  unfold spawns_in_order. intros (dropped & Hsum & Hnone) Hf.
  destruct s as [p c sp fin pb]. simpl in *.
  destruct e; simpl in Hf.
  - unfold advance, pbar2_update in Hf. simpl in Hf.
    destruct p as [[|m ms]|[|f fs] ms|f fs ms|fs ms| | | |st]; simpl in *.
    + injection Hf as <-. simpl. exists dropped.
      split; [assumption|]. intros [H|H]; [auto|discriminate].
    + destruct c; injection Hf as <-; simpl.
      * exists (dropped ++ files_to_download (m :: ms)).
        rewrite <- Hsum, !app_nil_r.
        split; [reflexivity|]. intros [H|H]; discriminate.
      * exists dropped. split; [assumption|].
        intros [H|H]; [auto|discriminate].
    + injection Hf as <-. simpl. exists dropped.
      split; [assumption|]. intros [H|H]; [auto|discriminate].
    + destruct c; [|destruct (is_file f) eqn:Ef; [destruct (pool_full _)|]];
        simpl in Hf; injection Hf as <-; simpl.
      * exists (dropped ++ (if is_file f then f :: List.filter is_file fs
                            else List.filter is_file fs)).
        rewrite <- Hsum, <- !app_assoc.
        split; [reflexivity|]. intros [H|H]; discriminate.
      * exists dropped. auto.
      * rewrite (Hnone (or_introl eq_refl)) in Hsum. simpl in Hsum.
        exists []. rewrite <- app_assoc. simpl. auto.
      * exists dropped. split; [assumption|].
        intros [H|H]; [auto|discriminate].
    + destruct (pool_full _); [discriminate|].
      injection Hf as <-. simpl.
      rewrite (Hnone (or_intror eq_refl)) in Hsum. simpl in Hsum.
      exists []. rewrite <- app_assoc. simpl. auto.
    + destruct pb as [k|]; [destruct c|]; injection Hf as <-; simpl;
        exists dropped; (split; [assumption|]);
        intros [H|H]; first [discriminate|auto].
    + destruct c; injection Hf as <-; simpl; exists dropped;
        (split; [assumption|]); intros [H|H]; first [discriminate|auto].
    + destruct (c || bool_decide (fin = length sp)); [|discriminate].
      injection Hf as <-. simpl. exists dropped.
      split; [assumption|]. intros [H|H]; first [discriminate|auto].
    + injection Hf as <-. simpl. exists dropped.
      split; [assumption|]. intros [H|H]; first [discriminate|auto].
    + discriminate.
  - unfold cancel in Hf. simpl in Hf.
    destruct p; try discriminate; injection Hf as <-; simpl;
      exists dropped; (split; [assumption|]);
      intros [H|H]; first [discriminate|auto].
  - unfold finish in Hf. simpl in Hf. open_step Hf. simpl.
    exists dropped. auto.
Qed.

Lemma start_spawns_in_order (manifests : list Manifest) (bars : bool) :
  spawns_in_order manifests (start manifests bars).
Proof. exists []. simpl. auto. Qed.

(** X11.  At every point of a run, cancelled or not, the files handed to
    the pool are an initial part of the file entries of the manifests, in
    manifest order: directories are never spawned, no file is spawned twice
    or out of turn. *)
Theorem spawned_files_are_a_prefix (manifests : list Manifest) (bars : bool)
    (events : list Event) (s : Scheduler) :
  run events (start manifests bars) = Some s ->
  spawned s `prefix_of` files_to_download manifests
  /\ Forall (fun f => is_file f = true) (spawned s).
Proof.
  intros Hr.
  assert (spawns_in_order manifests s) as (dropped & Hsum & _).
  { eapply (run_reachable (spawns_in_order manifests));
      [apply fire_spawns_in_order|apply start_spawns_in_order|exact Hr]. }
  assert (spawned s `prefix_of` files_to_download manifests) as Hpre
    by (eexists; symmetry; exact Hsum).
  split; [exact Hpre|].
  assert (Forall (fun f => is_file f = true) (files_to_download manifests))
    as Hall.
  { unfold files_to_download. apply Forall_concat, Forall_map.
    apply List.Forall_forall. intros m _. apply List.Forall_forall.
    intros f Hf. apply List.filter_In in Hf. tauto. }
  destruct Hpre as [rest Heq]. rewrite Heq in Hall.
  apply Forall_app in Hall. tauto.
Qed.

Lemma fire_joined_all (e : Event) (s s' : Scheduler) :
  joined_all s -> (finished s <= length (spawned s))%nat ->
  fire e s = Some s' ->
  joined_all s' /\ (finished s' <= length (spawned s'))%nat.
Proof.
  unfold joined_all. intros Hj Hle Hf.
  destruct s as [p c sp fin pb]. simpl in *.
  destruct e; simpl in Hf.
  - unfold advance, pbar2_update in Hf. simpl in Hf.
    destruct p as [[|m ms]|[|f fs] ms|f fs ms|fs ms| | | |st]; simpl in Hf;
      open_step Hf; simpl in *; rewrite ?length_app; simpl;
      split; try lia; try (intros; exact I); try discriminate; auto.
    all: intros ->; simpl in *; try discriminate.
    match goal with H : bool_decide _ = true |- _ =>
      apply bool_decide_eq_true in H; exact H end.
  - unfold cancel in Hf. simpl in Hf. open_step Hf; simpl;
      (split; [discriminate|assumption]).
  - unfold finish in Hf. simpl in Hf. open_step Hf. simpl.
    match goal with H : bool_decide _ = true |- _ =>
      apply bool_decide_eq_true in H end.
    split; [|lia]. intros Hc. specialize (Hj Hc).
    destruct p; try exact I; lia.
Qed.

(** X12.  A call that returns the status 0 has handed every file entry of
    the manifests to the pool, in manifest order, and has returned only
    after each of these tasks came to its end. *)
Theorem status_0_means_all_files_done (manifests : list Manifest)
    (bars : bool) (events : list Event) (s : Scheduler) :
  run events (start manifests bars) = Some s ->
  pc s = Exited 0 ->
  spawned s = files_to_download manifests
  /\ finished s = length (spawned s).
Proof.
  intros Hr Hpc.
  assert (status_reflects_flag s) as Hs.
  { eapply (run_reachable status_reflects_flag);
      [apply fire_status_reflects_flag| |exact Hr].
    intros status. simpl. discriminate. }
  assert (should_cancel s = false) as Hc.
  { specialize (Hs 0 Hpc). destruct (should_cancel s); [discriminate|].
    reflexivity. }
  assert (spawns_in_order manifests s) as (dropped & Hsum & Hnone).
  { eapply (run_reachable (spawns_in_order manifests));
      [apply fire_spawns_in_order|apply start_spawns_in_order|exact Hr]. }
  assert (joined_all s /\ (finished s <= length (spawned s))%nat)
    as [Hj _].
  { apply (run_reachable
             (fun x => joined_all x
                       /\ (finished x <= length (spawned x))%nat)
             (fun e x x' H Hf => fire_joined_all e x x' (proj1 H) (proj2 H) Hf)
             events (start manifests bars) s); [|exact Hr].
    split; [intros _; exact I|simpl; lia]. }
  split.
  - rewrite (Hnone (or_introl Hc)), Hpc in Hsum. simpl in Hsum.
    rewrite !app_nil_r in Hsum. exact Hsum.
  - specialize (Hj Hc). rewrite Hpc in Hj. exact Hj.
Qed.


Lemma bar_add_0 (bar : option nat) : bar_add 0 bar = bar.
Proof. destruct bar; simpl; [rewrite Nat.add_0_r|]; reflexivity. Qed.

Lemma bar_add_S (n k : nat) (bar : option nat) :
  bar_add n (bar_add k bar) = bar_add (k + n) bar.
Proof. destruct bar; simpl; [rewrite Nat.add_assoc|]; reflexivity. Qed.

Lemma undisturbed_stuck (s : Scheduler) :
  undisturbed_step s = None -> forall n, undisturbed n s = s.
Proof. intros H [|n]; simpl; [|rewrite H]; reflexivity. Qed.

Lemma undisturbed_add (n m : nat) :
  forall s, undisturbed (n + m) s = undisturbed m (undisturbed n s).
Proof.
  induction n as [|n IH]; intros s; simpl; [reflexivity|].
  destruct (undisturbed_step s) as [s'|] eqn:E; [apply IH|].
  symmetry. apply undisturbed_stuck. exact E.
Qed.

Lemma pool_full_false sp fin p c pb :
  (length sp - fin < pool_size)%nat ->
  pool_full {| pc := p; should_cancel := c; spawned := sp; finished := fin;
               pbar2 := pb |} = false.
Proof.
  intros H. unfold pool_full. cbn [spawned finished].
  apply Nat.leb_gt. exact H.
Qed.

Lemma pool_full_true sp fin p c pb :
  (pool_size <= length sp - fin)%nat ->
  pool_full {| pc := p; should_cancel := c; spawned := sp; finished := fin;
               pbar2 := pb |} = true.
Proof.
  intros H. unfold pool_full. cbn [spawned finished].
  apply Nat.leb_le. exact H.
Qed.

Lemma step_spawn (f : DepotFile) fs ms sp fin pb :
  is_file f = true -> (length sp - fin < pool_size)%nat ->
  undisturbed_step
    {| pc := InnerLoop (f :: fs) ms; should_cancel := false;
       spawned := sp; finished := fin; pbar2 := pb |}
  = Some {| pc := AfterSpawn fs ms; should_cancel := false;
            spawned := sp ++ [f]; finished := fin; pbar2 := pb |}.
Proof.
  intros Ef Hfree. unfold undisturbed_step, advance. cbn [pc should_cancel].
  rewrite Ef, pool_full_false by exact Hfree. reflexivity.
Qed.

Lemma step_wait (f : DepotFile) fs ms sp fin pb :
  is_file f = true -> (pool_size <= length sp - fin)%nat ->
  undisturbed_step
    {| pc := InnerLoop (f :: fs) ms; should_cancel := false;
       spawned := sp; finished := fin; pbar2 := pb |}
  = Some {| pc := Spawning f fs ms; should_cancel := false;
            spawned := sp; finished := fin; pbar2 := pb |}.
Proof.
  intros Ef Hfull. unfold undisturbed_step, advance. cbn [pc should_cancel].
  rewrite Ef, pool_full_true by exact Hfull. reflexivity.
Qed.

Lemma step_release (f : DepotFile) fs ms sp fin pb :
  (pool_size <= length sp - fin)%nat ->
  undisturbed_step
    {| pc := Spawning f fs ms; should_cancel := false;
       spawned := sp; finished := fin; pbar2 := pb |}
  = Some {| pc := Spawning f fs ms; should_cancel := false;
            spawned := sp; finished := S fin; pbar2 := pb |}.
Proof.
  intros Hfull. unfold undisturbed_step, advance. cbn [pc should_cancel].
  rewrite pool_full_true by exact Hfull.
  unfold finish. cbn [spawned finished].
  rewrite bool_decide_eq_true_2; [reflexivity|].
  unfold pool_size in Hfull. lia.
Qed.

Lemma step_wake (f : DepotFile) fs ms sp fin pb :
  (length sp - fin < pool_size)%nat ->
  undisturbed_step
    {| pc := Spawning f fs ms; should_cancel := false;
       spawned := sp; finished := fin; pbar2 := pb |}
  = Some {| pc := AfterSpawn fs ms; should_cancel := false;
            spawned := sp ++ [f]; finished := fin; pbar2 := pb |}.
Proof.
  intros Hfree. unfold undisturbed_step, advance. cbn [pc should_cancel].
  rewrite pool_full_false by exact Hfree. reflexivity.
Qed.

Lemma step_skip (f : DepotFile) fs ms sp fin pb :
  is_file f = false ->
  undisturbed_step
    {| pc := InnerLoop (f :: fs) ms; should_cancel := false;
       spawned := sp; finished := fin; pbar2 := pb |}
  = Some {| pc := InnerLoop fs ms; should_cancel := false;
            spawned := sp; finished := fin; pbar2 := pb |}.
Proof.
  intros Ef. unfold undisturbed_step, advance. cbn [pc should_cancel].
  rewrite Ef. reflexivity.
Qed.

Lemma step_update fs ms sp fin pb :
  undisturbed_step
    {| pc := AfterSpawn fs ms; should_cancel := false;
       spawned := sp; finished := fin; pbar2 := pb |}
  = Some {| pc := InnerLoop fs ms; should_cancel := false;
            spawned := sp; finished := fin; pbar2 := bar_add 1 pb |}.
Proof.
  unfold undisturbed_step, advance, pbar2_update, goto. simpl.
  destruct pb; simpl; [rewrite Nat.add_1_r|]; reflexivity.
Qed.

(** The inner loop left to itself hands every file of the manifest to the
    pool, waiting for a task to finish whenever the pool is full. *)
Lemma inner_loop_runs (fs : list DepotFile) :
  forall ms sp fin pb,
    (fin <= length sp)%nat -> (length sp - fin <= pool_size)%nat ->
    exists n fin',
      undisturbed n
        {| pc := InnerLoop fs ms; should_cancel := false; spawned := sp;
           finished := fin; pbar2 := pb |}
      = {| pc := OuterLoop ms; should_cancel := false;
           spawned := sp ++ List.filter is_file fs; finished := fin';
           pbar2 := bar_add (length (List.filter is_file fs)) pb |}
      /\ (fin' <= length (sp ++ List.filter is_file fs))%nat
      /\ (length (sp ++ List.filter is_file fs) - fin' <= pool_size)%nat.
Proof.
  induction fs as [|f fs IH]; intros ms sp fin pb Hle Hpool.
  - exists 1%nat, fin. simpl. unfold goto. simpl.
    rewrite app_nil_r, bar_add_0. auto.
  - destruct (is_file f) eqn:Ef.
    + destruct (Nat.lt_ge_cases (length sp - fin) pool_size) as [Hfree|Hfull].
      * destruct (IH ms (sp ++ [f]) fin (bar_add 1 pb))
          as (n & fin' & Hn & H1 & H2);
          [rewrite length_app; simpl; lia|rewrite length_app; simpl; lia|].
        exists (S (S n)), fin'. cbn [undisturbed].
        rewrite step_spawn by assumption. rewrite step_update, Hn.
        cbn [List.filter]. rewrite Ef, bar_add_S. simpl length.
        rewrite <- !app_assoc in *. simpl in *. auto.
      * destruct (IH ms (sp ++ [f]) (S fin) (bar_add 1 pb))
          as (n & fin' & Hn & H1 & H2);
          [rewrite length_app; simpl; unfold pool_size in *; lia
          |rewrite length_app; simpl; unfold pool_size in *; lia|].
        exists (S (S (S (S n)))), fin'. cbn [undisturbed].
        rewrite step_wait by assumption.
        rewrite step_release by assumption.
        rewrite step_wake by (unfold pool_size in *; lia).
        rewrite step_update, Hn.
        cbn [List.filter]. rewrite Ef, bar_add_S. simpl length.
        rewrite <- !app_assoc in *. simpl in *. auto.
    + destruct (IH ms sp fin pb Hle Hpool) as (n & fin' & Hn & H1 & H2).
      exists (S n), fin'. cbn [undisturbed].
      rewrite step_skip by exact Ef. rewrite Hn.
      cbn [List.filter]. rewrite Ef. auto.
Qed.

Lemma outer_loop_runs (ms : list Manifest) :
  forall sp fin pb,
    (fin <= length sp)%nat -> (length sp - fin <= pool_size)%nat ->
    exists n fin',
      undisturbed n
        {| pc := OuterLoop ms; should_cancel := false; spawned := sp;
           finished := fin; pbar2 := pb |}
      = {| pc := AfterLoops; should_cancel := false;
           spawned := sp ++ files_to_download ms; finished := fin';
           pbar2 := bar_add (length (files_to_download ms)) pb |}
      /\ (fin' <= length (sp ++ files_to_download ms))%nat.
Proof.
  induction ms as [|m ms IH]; intros sp fin pb Hle Hpool.
  - exists 1%nat, fin. simpl. unfold goto. simpl.
    rewrite app_nil_r, bar_add_0. auto.
  - destruct (inner_loop_runs (mappings m) ms sp fin pb Hle Hpool)
      as (n1 & fin1 & H1 & Hle1 & Hpool1).
    destruct (IH (sp ++ List.filter is_file (mappings m)) fin1
                 (bar_add (length (List.filter is_file (mappings m))) pb)
                 Hle1 Hpool1)
      as (n2 & fin2 & H2 & Hle2).
    exists (S (n1 + n2)), fin2. cbn [undisturbed].
    assert (undisturbed_step
              {| pc := OuterLoop (m :: ms); should_cancel := false;
                 spawned := sp; finished := fin; pbar2 := pb |}
            = Some {| pc := InnerLoop (mappings m) ms; should_cancel := false;
                      spawned := sp; finished := fin; pbar2 := pb |}) as ->
      by reflexivity.
    rewrite undisturbed_add, H1, H2.
    rewrite files_to_download_cons, length_app, bar_add_S, app_assoc.
    split; [reflexivity|]. rewrite !length_app in *. lia.
Qed.

(** [tasks.join()] left to itself returns once every task has finished. *)
Lemma join_runs (k : nat) :
  forall sp fin pb,
    (fin + k = length sp)%nat ->
    exists n,
      undisturbed n
        {| pc := Joining; should_cancel := false; spawned := sp;
           finished := fin; pbar2 := pb |}
      = {| pc := Finally; should_cancel := false; spawned := sp;
           finished := length sp; pbar2 := pb |}.
Proof.
  induction k as [|k IH]; intros sp fin pb Hk.
  - exists 1%nat. cbn [undisturbed]. unfold undisturbed_step, advance.
    cbn [pc should_cancel finished spawned orb].
    rewrite bool_decide_eq_true_2 by lia.
    unfold goto. simpl. f_equal. lia.
  - destruct (IH sp (S fin) pb ltac:(lia)) as [n Hn].
    exists (S n). cbn [undisturbed]. unfold undisturbed_step, advance.
    cbn [pc should_cancel finished spawned orb].
    rewrite bool_decide_eq_false_2 by lia.
    unfold finish. cbn [finished spawned].
    rewrite bool_decide_eq_true_2 by lia. exact Hn.
Qed.

Lemma count_files_inner (fs : list DepotFile) :
  forall totals : nat * nat,
    (foldl (fun totals depotfile =>
              if negb (is_file depotfile) then totals
              else (totals.1 + 1, totals.2 + size depotfile)%nat)
           totals fs).1
    = (totals.1 + length (List.filter is_file fs))%nat.
Proof.
  induction fs as [|f fs IH]; intros totals; simpl; [lia|].
  rewrite IH. destruct (is_file f); simpl; lia.
Qed.

Lemma count_files_from (ms : list Manifest) :
  forall totals : nat * nat,
    (foldl (fun totals manifest =>
              foldl (fun totals depotfile =>
                       if negb (is_file depotfile) then totals
                       else (totals.1 + 1, totals.2 + size depotfile)%nat)
                    totals (mappings manifest))
           totals ms).1
    = (totals.1 + length (files_to_download ms))%nat.
Proof.
  induction ms as [|m ms IH]; intros totals; simpl; [lia|].
  rewrite IH, count_files_inner, files_to_download_cons, length_app. lia.
Qed.

(** X13.  When the manifests hold a file, the function left to itself
    enters the loop and runs to its end: it hands every file entry of the
    manifests to the pool, in manifest order, waiting for a task to finish
    whenever the six places of the pool are taken; it returns 0 once each
    task has finished, and the Files bar, when shown, stands at
    [total_files], the number the counting loop found. *)
Theorem undisturbed_run_downloads_everything (manifests : list Manifest)
    (bars : bool) :
  files_to_download manifests <> [] ->
  exists s0 n,
    enter_loop manifests bars = Some s0
    /\ forall m, (n <= m)%nat ->
         undisturbed m s0
         = {| pc := Exited 0; should_cancel := false;
              spawned := files_to_download manifests;
              finished := length (files_to_download manifests);
              pbar2 := if bars then Some (count_files manifests).1
                       else None |}.
Proof.
  intros Hfiles.
  assert ((count_files manifests).1 = length (files_to_download manifests))
    as Hcount by (unfold count_files; rewrite count_files_from; reflexivity).
  destruct (outer_loop_runs manifests [] 0%nat
              (if bars then Some 0%nat else None) ltac:(simpl; lia)
              ltac:(unfold pool_size; simpl; lia))
    as (n1 & fin1 & H1 & Hle1).
  simpl in H1, Hle1.
  destruct (join_runs (length (files_to_download manifests) - fin1)
              (files_to_download manifests) fin1
              (bar_add (length (files_to_download manifests))
                       (if bars then Some 0%nat else None)) ltac:(lia))
    as [n2 H2].
  exists (start manifests bars), (n1 + (1 + (n2 + 1)))%nat. split.
  - unfold enter_loop. rewrite Hcount.
    destruct (files_to_download manifests); [congruence|reflexivity].
  - intros m Hm.
    replace m with (n1 + (1 + (n2 + (1 + (m - (n1 + (1 + (n2 + 1))))))))%nat
      by lia.
    rewrite undisturbed_add. unfold start. rewrite H1.
    rewrite undisturbed_add.
    assert (undisturbed 1
              {| pc := AfterLoops; should_cancel := false;
                 spawned := files_to_download manifests; finished := fin1;
                 pbar2 := bar_add (length (files_to_download manifests))
                            (if bars then Some 0%nat else None) |}
            = {| pc := Joining; should_cancel := false;
                 spawned := files_to_download manifests; finished := fin1;
                 pbar2 := bar_add (length (files_to_download manifests))
                            (if bars then Some 0%nat else None) |}) as ->
      by reflexivity.
    rewrite undisturbed_add, H2, undisturbed_add.
    assert (undisturbed 1
              {| pc := Finally; should_cancel := false;
                 spawned := files_to_download manifests;
                 finished := length (files_to_download manifests);
                 pbar2 := bar_add (length (files_to_download manifests))
                            (if bars then Some 0%nat else None) |}
            = {| pc := Exited 0; should_cancel := false;
                 spawned := files_to_download manifests;
                 finished := length (files_to_download manifests);
                 pbar2 := bar_add (length (files_to_download manifests))
                            (if bars then Some 0%nat else None) |}) as ->
      by reflexivity.
    rewrite undisturbed_stuck.
    + rewrite Hcount. destruct bars; reflexivity.
    + unfold undisturbed_step, advance, finish. simpl.
      rewrite bool_decide_eq_false_2 by lia. reflexivity.
Qed.

End submission_properties.

Section submission_examples.

Import clients gcmds.

Lemma spawned_files_are_a_prefix_witness :
  spawned counted_before_finished `prefix_of` files_to_download [base_manifest]
  /\ Forall (fun f => is_file f = true) (spawned counted_before_finished).
Proof.
  apply (spawned_files_are_a_prefix [base_manifest] true
           [Advance; Advance; Advance]).
  reflexivity.
Defined.

Lemma undisturbed_run_downloads_everything_witness :
  exists s0 n,
    enter_loop [seven_parts] true = Some s0
    /\ forall m, (n <= m)%nat ->
         undisturbed m s0
         = {| pc := Exited 0; should_cancel := false;
              spawned := files_to_download [seven_parts];
              finished := length (files_to_download [seven_parts]);
              pbar2 := if true then Some (count_files [seven_parts]).1
                       else None |}.
Proof.
  apply (undisturbed_run_downloads_everything [seven_parts] true).
  discriminate.
Defined.

Lemma status_0_means_all_files_done_witness :
  spawned exited_after_join = files_to_download [mixed_manifest]
  /\ finished exited_after_join = length (spawned exited_after_join).
Proof.
  apply (status_0_means_all_files_done [mixed_manifest] true
           [Advance; Advance; Advance; Advance; Advance; Advance;
            Advance; Finish; Advance; Advance]);
    reflexivity.
Defined.

End submission_examples.

(** ** clients.py: the key store after [save_cache] *)

Section key_store_sync_properties.

Import clients.

Lemma depot_keys_held (self : CachingCDNClient) (disk : Disk)
    (held : gmap Z (list byte)) (self' : CachingCDNClient) :
  depot_keys self disk = (Some held, self') ->
  _depot_keys self' = Some held
  /\ custom_depot_keys_file self' = custom_depot_keys_file self.
Proof.
  unfold depot_keys. destruct (falsy_keys (_depot_keys self)) eqn:F.
  - destruct (get_cached_depot_keys self disk) as [cached|];
      intros [= <- <-]; simpl; auto.
  - intros [= E <-]. split; [exact E|reflexivity].
Qed.

Lemma get_cached_depot_keys_default (self : CachingCDNClient) (disk : Disk) :
  truthy_path (custom_depot_keys_file self) = false ->
  get_cached_depot_keys self disk
  = match disk !! default_keys_path with
    | Some (KeysJson keys) => Some keys
    | Some BadKeys => None
    | Some BadJson | None => Some ∅
    end.
Proof.
  unfold get_cached_depot_keys, truthy_path.
  destruct (custom_depot_keys_file self) as [p|]; [|reflexivity].
  intros ->. reflexivity.
Qed.

Lemma save_cache_in_sync (self : CachingCDNClient) (disk : Disk)
    (self' : CachingCDNClient) (disk' : Disk) :
  truthy_path (custom_depot_keys_file self) = false ->
  save_cache self disk = (Returned, self', disk') ->
  get_cached_depot_keys self' disk' = _depot_keys self'
  /\ is_Some (_depot_keys self')
  /\ custom_depot_keys_file self' = custom_depot_keys_file self.
Proof.
  intros Hnone. unfold save_cache.
  destruct (get_cached_depot_keys self disk) as [cached|] eqn:G;
    [|discriminate].
  destruct (depot_keys self disk) as [[held|] self1] eqn:E1; [|discriminate].
  destruct (depot_keys_held _ _ _ _ E1) as (K1 & C1).
  case_bool_decide as Heq.
  - intros [= <- <-]. rewrite K1. split; [|eauto].
    subst held. rewrite <- G.
    rewrite !get_cached_depot_keys_default by congruence. reflexivity.
  - destruct (depot_keys self1 disk) as [[held2|] self2] eqn:E2;
      [|discriminate].
    destruct (depot_keys_held _ _ _ _ E2) as (K2 & C2).
    destruct (depot_keys (depot_keys_update self2 cached held2) disk)
      as [[out|] self3] eqn:E3; [|discriminate].
    destruct (depot_keys_held _ _ _ _ E3) as (K3 & C3).
    simpl in C3.
    assert (custom_depot_keys_file self3 = custom_depot_keys_file self)
      as C by congruence.
    rewrite C, Hnone. simpl.
    intros [= <- <-]. rewrite K3. split; [|eauto].
    rewrite get_cached_depot_keys_default by congruence.
    assert (<[default_keys_path := KeysJson out]> disk !! default_keys_path
            = Some (KeysJson out)) as -> by apply lookup_insert_eq.
    reflexivity.
Qed.

Lemma save_cache_keeps_disk_with_custom (self : CachingCDNClient)
    (disk : Disk) :
  truthy_path (custom_depot_keys_file self) = true ->
  (save_cache self disk).2 = disk
  /\ custom_depot_keys_file (save_cache self disk).1.2
     = custom_depot_keys_file self.
Proof.
  intros Hc. unfold save_cache.
  destruct (get_cached_depot_keys self disk) as [cached|]; [|auto].
  destruct (depot_keys self disk) as [[held|] self1] eqn:E1.
  2:{ pose proof (depot_keys_custom_file self disk) as H.
      rewrite E1 in H. auto. }
  destruct (depot_keys_held _ _ _ _ E1) as (_ & C1).
  case_bool_decide as Heq; [auto|].
  destruct (depot_keys self1 disk) as [[held2|] self2] eqn:E2.
  2:{ pose proof (depot_keys_custom_file self1 disk) as H2.
      rewrite E2 in H2. simpl in *. split; [reflexivity|congruence]. }
  destruct (depot_keys_held _ _ _ _ E2) as (_ & C2).
  pose proof (depot_keys_custom_file
                (depot_keys_update self2 cached held2) disk) as H3.
  destruct (depot_keys (depot_keys_update self2 cached held2) disk)
    as [[out|] self3] eqn:E3; simpl in H3.
  - assert (custom_depot_keys_file self3 = custom_depot_keys_file self)
      as C by congruence.
    rewrite C, Hc. simpl. auto.
  - simpl. split; [reflexivity|congruence].
Qed.

(** X14.  After a [save_cache] that returns, on a client without a custom
    key file, the default store on disk holds exactly the keys the client
    holds in memory: a client started afterwards loads what this one
    knew. *)
Theorem save_cache_stores_the_keys_held (self : CachingCDNClient)
    (disk : Disk) (self' : CachingCDNClient) (disk' : Disk) :
  truthy_path (custom_depot_keys_file self) = false ->
  save_cache self disk = (Returned, self', disk') ->
  get_cached_depot_keys self' disk' = _depot_keys self'
  /\ is_Some (_depot_keys self').
Proof.
  intros Hnone Hsave.
  destruct (save_cache_in_sync self disk self' disk' Hnone Hsave)
    as (H1 & H2 & _).
  auto.
Qed.

Lemma get_cached_depot_keys_same_custom (a b : CachingCDNClient)
    (disk : Disk) :
  custom_depot_keys_file a = custom_depot_keys_file b ->
  get_cached_depot_keys a disk = get_cached_depot_keys b disk.
Proof. unfold get_cached_depot_keys. intros ->. reflexivity. Qed.

Lemma depot_keys_returns (self : CachingCDNClient) (disk : Disk)
    (cached : gmap Z (list byte)) :
  get_cached_depot_keys self disk = Some cached ->
  exists held, (depot_keys self disk).1 = Some held.
Proof.
  intros G. unfold depot_keys.
  destruct (_depot_keys self) as [k|]; simpl.
  - case_bool_decide; [rewrite G|]; simpl; eauto.
  - rewrite G. simpl. eauto.
Qed.

Lemma save_cache_returns (self : CachingCDNClient) (disk : Disk)
    (cached : gmap Z (list byte)) :
  get_cached_depot_keys self disk = Some cached ->
  (save_cache self disk).1.1 = Returned.
Proof.
  intros G. unfold save_cache. rewrite G.
  destruct (depot_keys_returns self disk cached G) as [held H1].
  pose proof (depot_keys_custom_file self disk) as C1.
  destruct (depot_keys self disk) as [o1 self1]. simpl in H1, C1. subst o1.
  case_bool_decide as Heq; [reflexivity|].
  assert (get_cached_depot_keys self1 disk = Some cached) as G1
    by (rewrite (get_cached_depot_keys_same_custom self1 self) by exact C1;
        exact G).
  destruct (depot_keys_returns self1 disk cached G1) as [held2 H2].
  pose proof (depot_keys_custom_file self1 disk) as C2.
  destruct (depot_keys self1 disk) as [o2 self2]. simpl in H2, C2. subst o2.
  assert (get_cached_depot_keys (depot_keys_update self2 cached held2) disk
          = Some cached) as G2
    by (rewrite (get_cached_depot_keys_same_custom _ self1) by exact C2;
        exact G1).
  destruct (depot_keys_returns _ disk cached G2) as [out H3].
  destruct (depot_keys (depot_keys_update self2 cached held2) disk)
    as [o3 self3]. simpl in H3. subst o3.
  destruct (negb _); reflexivity.
Qed.

(** X15.  A [save_cache] that returns, followed by a second one on the
    client and the disk the first left, returns again and changes nothing
    on disk the second time, with or without a custom key file. *)
Theorem save_cache_twice_writes_once (self : CachingCDNClient) (disk : Disk)
    (self' : CachingCDNClient) (disk' : Disk) :
  save_cache self disk = (Returned, self', disk') ->
  (save_cache self' disk').2 = disk'
  /\ (save_cache self' disk').1.1 = Returned.
Proof.
  intros Hsave.
  destruct (truthy_path (custom_depot_keys_file self)) eqn:Hc.
  - destruct (save_cache_keeps_disk_with_custom self disk Hc) as [Hd Hcf].
    rewrite Hsave in Hd, Hcf. simpl in Hd, Hcf. subst disk'.
    assert (truthy_path (custom_depot_keys_file self') = true) as Hc'
      by (rewrite Hcf; exact Hc).
    split; [apply save_cache_keeps_disk_with_custom; exact Hc'|].
    destruct (get_cached_depot_keys self disk) as [cached|] eqn:G.
    + apply (save_cache_returns self' disk cached).
      rewrite (get_cached_depot_keys_same_custom self' self) by exact Hcf.
      exact G.
    + unfold save_cache in Hsave. rewrite G in Hsave. discriminate.
  - destruct (save_cache_in_sync self disk self' disk' Hc Hsave)
      as (Hsync & [k Hk] & _).
    rewrite Hk in Hsync. split.
    + unfold save_cache. rewrite Hsync.
      assert (depot_keys self' disk' = (Some k, (depot_keys self' disk').2))
        as ->.
      { unfold depot_keys. destruct (falsy_keys _).
        - rewrite Hsync. reflexivity.
        - rewrite Hk. reflexivity. }
      rewrite bool_decide_eq_true_2 by reflexivity. reflexivity.
    + apply (save_cache_returns self' disk' k). exact Hsync.
Qed.

End key_store_sync_properties.

Section key_store_sync_examples.

Import clients.

Lemma save_cache_stores_the_keys_held_witness :
  get_cached_depot_keys plain_client_saved plain_disk_saved
  = _depot_keys plain_client_saved
  /\ is_Some (_depot_keys plain_client_saved).
Proof.
  apply (save_cache_stores_the_keys_held plain_client ∅
           plain_client_saved plain_disk_saved).
  - reflexivity.
  - vm_compute. reflexivity.
Defined.

Lemma save_cache_twice_writes_once_witness :
  (save_cache plain_client_saved plain_disk_saved).2 = plain_disk_saved
  /\ (save_cache plain_client_saved plain_disk_saved).1.1 = Returned.
Proof.
  apply (save_cache_twice_writes_once plain_client ∅
           plain_client_saved plain_disk_saved).
  vm_compute. reflexivity.
Defined.

End key_store_sync_examples.

(** ** gcmds.py: the cache of [ManifestFileIndex] *)

Section index_cache_properties.

Import clients gcmds.

Variable fnmatch : string -> string -> bool.
Variable filename_raw : DepotFile -> string.

Lemma iter_files_mappings (m : Manifest) (pattern : option string)
    (f : DepotFile) :
  f ∈ iter_files fnmatch m pattern -> f ∈ mappings m.
Proof.
  unfold iter_files. rewrite !list_elem_of_In.
  intros H. apply List.filter_In in H. tauto.
Qed.

Lemma cache_put_sound (self : ManifestFileIndex) (path : string)
    (m : Manifest) (f : DepotFile) :
  cache_sound self -> m ∈ manifests self -> f ∈ mappings m ->
  cache_sound (cache_put self path (m, f)).
Proof.
  unfold cache_sound, cache_put. simpl. intros Hs Hm Hf path' m' f'.
  destruct (decide (path = path')) as [->|Hne].
  - rewrite lookup_insert_eq. intros [= <- <-]. auto.
  - rewrite lookup_insert_ne by exact Hne. apply Hs.
Qed.

Lemma locate_loop_sound (path : string) (ms : list Manifest) :
  forall self ref,
    cache_sound self ->
    (forall m, m ∈ ms -> m ∈ manifests self) ->
    (forall m f, ref = Some (m, f) -> m ∈ manifests self /\ f ∈ mappings m) ->
    let r := locate_loop fnmatch path ms self ref in
    cache_sound r.2
    /\ manifests r.2 = manifests self
    /\ forall m f, r.1 = Some (m, f) -> m ∈ manifests self /\ f ∈ mappings m.
Proof.
  induction ms as [|m ms IH]; intros self ref Hs Hsub Href; simpl.
  - auto.
  - destruct (iter_files fnmatch m (Some path)) as [|f fs] eqn:E.
    + apply (IH {| manifests := manifests self;
                   _path_cache := _path_cache self;
                   scans := S (scans self) |} ref).
      * unfold cache_sound in *. simpl. exact Hs.
      * intros m' Hm'. simpl. apply Hsub. right. exact Hm'.
      * simpl. exact Href.
    + assert (m ∈ manifests self) as Hm by (apply Hsub; left).
      assert (f ∈ mappings m) as Hf.
      { apply (iter_files_mappings m (Some path)). rewrite E. left. }
      apply (IH (cache_put
                   {| manifests := manifests self;
                      _path_cache := _path_cache self;
                      scans := S (scans self) |} path (m, f))).
      * apply cache_put_sound; [|exact Hm|exact Hf].
        unfold cache_sound in *. simpl. exact Hs.
      * intros m' Hm'. simpl. apply Hsub. right. exact Hm'.
      * intros m' f' [= <- <-]. simpl. auto.
Qed.

Lemma locate_sound (self : ManifestFileIndex) (path : string) :
  cache_sound self ->
  let r := _locate_file_mapping fnmatch self path in
  cache_sound r.2
  /\ manifests r.2 = manifests self
  /\ forall m f, r.1 = Some (m, f) -> m ∈ manifests self /\ f ∈ mappings m.
Proof.
  intros Hs. unfold _locate_file_mapping.
  destruct (default None (_path_cache self !! path)) as [[m0 f0]|] eqn:E.
  - simpl. split; [exact Hs|]. split; [reflexivity|].
    intros m f [= <- <-]. apply (Hs path).
    destruct (_path_cache self !! path) as [[r|]|]; simpl in E;
      [injection E as ->; reflexivity|discriminate E|discriminate E].
  - apply (locate_loop_sound path (manifests self)
             {| manifests := manifests self;
                _path_cache := <[path := None]> (_path_cache self);
                scans := scans self |} None).
    + intros path' m f. simpl.
      destruct (decide (path = path')) as [->|Hne].
      * rewrite lookup_insert_eq. discriminate.
      * rewrite lookup_insert_ne by exact Hne. apply Hs.
    + auto.
    + discriminate.
Qed.

Lemma index_files_sound (m : Manifest) (raw : bool) (fs : list DepotFile) :
  forall self,
    cache_sound self -> m ∈ manifests self ->
    (forall f, f ∈ fs -> f ∈ mappings m) ->
    let r := foldl (fun self filematch =>
                      cache_put self
                        (if raw then filename_raw filematch
                         else filename filematch) (m, filematch))
                   self fs in
    cache_sound r /\ manifests r = manifests self.
Proof.
  induction fs as [|f fs IH]; intros self Hs Hm Hsub; simpl; [auto|].
  destruct (IH (cache_put self (if raw then filename_raw f else filename f)
                          (m, f))) as [H1 H2].
  - apply cache_put_sound; [assumption..|]. apply Hsub. left.
  - exact Hm.
  - intros f' Hf'. apply Hsub. right. exact Hf'.
  - split; [exact H1|exact H2].
Qed.

Lemma index_manifests_sound (pattern : option string) (raw : bool)
    (ms : list Manifest) :
  forall self,
    cache_sound self -> (forall m, m ∈ ms -> m ∈ manifests self) ->
    let r := foldl (fun self manifest =>
                      foldl (fun self filematch =>
                               cache_put self
                                 (if raw then filename_raw filematch
                                  else filename filematch)
                                 (manifest, filematch))
                            self (iter_files fnmatch manifest pattern))
                   self ms in
    cache_sound r /\ manifests r = manifests self.
Proof.
  induction ms as [|m ms IH]; intros self Hs Hsub; simpl; [auto|].
  destruct (index_files_sound m raw (iter_files fnmatch m pattern) self Hs)
    as [H1 H2].
  - apply Hsub. left.
  - intros f. apply iter_files_mappings.
  - destruct (IH _ H1) as [H3 H4].
    + intros m' Hm'. rewrite H2. apply Hsub. right. exact Hm'.
    + split; [exact H3|congruence].
Qed.

Lemma call_sound (self : ManifestFileIndex) (c : IndexCall) :
  cache_sound self ->
  cache_sound (call fnmatch filename_raw self c)
  /\ manifests (call fnmatch filename_raw self c) = manifests self.
Proof.
  intros Hs. destruct c as [path|pattern raw]; simpl.
  - destruct (locate_sound self path Hs) as (H1 & H2 & _). auto.
  - apply index_manifests_sound; auto.
Qed.

Lemma calls_sound (calls : list IndexCall) :
  forall self,
    cache_sound self ->
    cache_sound (foldl (call fnmatch filename_raw) self calls)
    /\ manifests (foldl (call fnmatch filename_raw) self calls)
       = manifests self.
Proof.
  induction calls as [|c calls IH]; intros self Hs; simpl; [auto|].
  destruct (call_sound self c Hs) as [H1 H2].
  destruct (IH _ H1) as [H3 H4]. split; [exact H3|congruence].
Qed.

(** X16.  Whatever lookups and [index] calls an index has served since it
    was built, the tuple [get_file] finds for a path names one of the
    manifests the index was built over and a file mapping of that very
    manifest. *)
Theorem get_file_returns_a_mapping_of_its_manifest
    (manifests0 : list Manifest) (calls : list IndexCall) (path : string)
    (m : Manifest) (f : DepotFile) :
  (get_file fnmatch
     (foldl (call fnmatch filename_raw) (new_index manifests0) calls)
     path).1 = Some (m, f) ->
  m ∈ manifests0 /\ f ∈ mappings m.
Proof.
  intros H.
  destruct (calls_sound calls (new_index manifests0)) as [Hs Hm].
  { intros p m' f'. simpl. rewrite lookup_empty. discriminate. }
  destruct (locate_sound _ path Hs) as (_ & _ & Hr).
  simpl in Hm. rewrite <- Hm. apply Hr. exact H.
Qed.

Lemma locate_loop_cache_other (path other : string) (ms : list Manifest) :
  other <> path ->
  forall self ref,
    _path_cache (locate_loop fnmatch path ms self ref).2 !! other
    = _path_cache self !! other.
Proof.
  intros Hne. induction ms as [|m ms IH]; intros self ref; simpl;
    [reflexivity|].
  destruct (iter_files fnmatch m (Some path)); rewrite IH; simpl;
    [reflexivity|].
  apply lookup_insert_ne. congruence.
Qed.

Lemma locate_agrees (self : ManifestFileIndex) (path : string) :
  cache_agrees fnmatch self ->
  let r := _locate_file_mapping fnmatch self path in
  r.1 = last (providers fnmatch path (manifests self))
  /\ cache_agrees fnmatch r.2
  /\ manifests r.2 = manifests self.
Proof.
  intros Ha. unfold _locate_file_mapping.
  destruct (default None (_path_cache self !! path)) as [r0|] eqn:E.
  - simpl. repeat split; try assumption.
    symmetry. apply Ha.
    destruct (_path_cache self !! path) as [[r|]|]; simpl in E;
      [injection E as ->; reflexivity|discriminate E|discriminate E].
  - cbv zeta.
    set (self1 := {| manifests := manifests self;
                     _path_cache := <[path := None]> (_path_cache self);
                     scans := scans self |}).
    assert ((locate_loop fnmatch path (manifests self) self1 None).1
            = last (providers fnmatch path (manifests self))) as Hres.
    { rewrite locate_loop_result. destruct (last _); reflexivity. }
    split; [exact Hres|]. split.
    + intros p r. rewrite locate_loop_manifests. simpl.
      destruct (decide (p = path)) as [->|Hne].
      * rewrite locate_loop_cache by apply lookup_insert_eq.
        rewrite Hres. intros [= H]. exact H.
      * rewrite locate_loop_cache_other by exact Hne. simpl.
        rewrite lookup_insert_ne by congruence. apply Ha.
    + rewrite locate_loop_manifests. reflexivity.
Qed.

Lemma lookups_agree (paths : list string) :
  forall self,
    cache_agrees fnmatch self ->
    cache_agrees fnmatch
      (foldl (fun s p => (_locate_file_mapping fnmatch s p).2) self paths)
    /\ manifests
         (foldl (fun s p => (_locate_file_mapping fnmatch s p).2) self paths)
       = manifests self.
Proof.
  induction paths as [|p paths IH]; intros self Ha; simpl; [auto|].
  destruct (locate_agrees self p Ha) as (_ & H1 & H2).
  destruct (IH _ H1) as [H3 H4]. split; [exact H3|congruence].
Qed.

(** X17.  The cache is transparent: whatever paths a freshly built index
    has been asked for before, the lookup of a path answers as a full scan
    of the manifests would, with the tuple of the last manifest that holds
    the path, and [file_exists] tells whether some manifest holds it. *)
Theorem lookups_do_not_change_answers (manifests0 : list Manifest)
    (asked : list string) (path : string) :
  let self := foldl (fun s p => (_locate_file_mapping fnmatch s p).2)
                    (new_index manifests0) asked in
  (_locate_file_mapping fnmatch self path).1
  = last (providers fnmatch path manifests0)
  /\ (file_exists fnmatch self path).1
     = bool_decide (providers fnmatch path manifests0 <> []).
Proof.
  intros self.
  destruct (lookups_agree asked (new_index manifests0)) as [Ha Hm].
  { intros p r. simpl. rewrite lookup_empty. discriminate. }
  fold self in Ha, Hm. simpl in Hm.
  destruct (locate_agrees self path Ha) as (Hr & _ & _).
  rewrite Hm in Hr. split; [exact Hr|].
  unfold file_exists. simpl. rewrite Hr.
  destruct (providers fnmatch path manifests0) as [|x l] using rev_ind.
  - reflexivity.
  - rewrite last_snoc.
    rewrite !bool_decide_eq_true_2; [reflexivity| |discriminate].
    intros H. destruct l; discriminate.
Qed.

End index_cache_properties.

Section index_cache_examples.

Import clients gcmds.

Lemma get_file_returns_a_mapping_of_its_manifest_witness :
  patch_manifest ∈ [base_manifest; patch_manifest]
  /\ readme_v2 ∈ mappings patch_manifest.
Proof.
  apply (get_file_returns_a_mapping_of_its_manifest fnmatch_plain
           raw_is_name [base_manifest; patch_manifest]
           [Index None true; Locate "missing.txt"] "readme.txt").
  vm_compute. reflexivity.
Defined.

End index_cache_examples.

(** ** clients.py: the cache of content servers *)

Section server_cache_properties.

Import clients.

Variable ContentServer : Type.
Variable cdn_fetch : list ContentServer -> option (list ContentServer).

(** X18.  A call of [fetch_content_servers] that fetched the servers
    leaves a cache that serves every later call made less than 300 seconds
    after its stamp, taken when the fetch had ended: such a call fetches
    nothing, leaves the file alone and appends the cached servers to those
    of the client.  From 300 seconds on the servers are fetched again and
    the file is written anew. *)
Theorem refreshed_server_cache_lasts_300_seconds
    (now0 later0 now1 later1 cell0 cell1 : Z)
    (servers0 servers1 servers fetched : list ContentServer)
    (file0 file1 : option (ServerCache ContentServer)) :
  fetch_content_servers ContentServer cdn_fetch now0 later0 servers0 cell0
    file0 = Some (servers1, file1, 1%nat) ->
  cdn_fetch servers = Some fetched ->
  (now1 < later0 + 300 ->
   fetch_content_servers ContentServer cdn_fetch now1 later1 servers cell1
     file1 = Some (servers ++ servers1, file1, 0%nat))
  /\ (later0 + 300 <= now1 ->
      fetch_content_servers ContentServer cdn_fetch now1 later1 servers cell1
        file1
      = Some (fetched,
              Some {| timestamp := later1; cache_cell_id := cell1;
                      cached_servers := fetched |},
              1%nat)).
Proof.
  intros Hfirst Hfetch.
  assert (file1 = Some {| timestamp := later0; cache_cell_id := cell0;
                          cached_servers := servers1 |}) as ->.
  { unfold fetch_content_servers in Hfirst.
    destruct file0 as [data|];
      [destruct (timestamp _ data + 300 >? now0); [discriminate|]|];
      destruct (cdn_fetch servers0); try discriminate;
      injection Hfirst as <- <-; reflexivity. }
  unfold fetch_content_servers. simpl. split; intros Ht.
  - destruct (later0 + 300 >? now1) eqn:E; [reflexivity|]. lia.
  - destruct (later0 + 300 >? now1) eqn:E; [lia|].
    rewrite Hfetch. reflexivity.
Qed.

End server_cache_properties.

Section server_cache_examples.

Import clients.

Lemma refreshed_server_cache_lasts_300_seconds_witness :
  (1299 < 1000 + 300 ->
   fetch_content_servers nat two_servers 1299 1301 [7%nat] 0
     (Some {| timestamp := 1000; cache_cell_id := 0;
              cached_servers := [1; 2]%nat |})
   = Some ([7; 1; 2]%nat,
           Some {| timestamp := 1000; cache_cell_id := 0;
                   cached_servers := [1; 2]%nat |}, 0%nat))
  /\ (1000 + 300 <= 1299 ->
      fetch_content_servers nat two_servers 1299 1301 [7%nat] 0
        (Some {| timestamp := 1000; cache_cell_id := 0;
                 cached_servers := [1; 2]%nat |})
      = Some ([1; 2]%nat,
              Some {| timestamp := 1301; cache_cell_id := 0;
                      cached_servers := [1; 2]%nat |}, 1%nat)).
Proof.
  apply (refreshed_server_cache_lasts_300_seconds nat two_servers
           990 1000 1299 1301 0 0 [] [1; 2]%nat [7%nat] [1; 2]%nat None);
    reflexivity.
Defined.

End server_cache_examples.

(** ** tqdm.py: the fallback progress bar *)

Section progress_properties.

Import tqdm.

Lemma cancelled_bar_is_deaf (calls : list Call) :
  forall b,
    _cancelled (bar b) = true -> disable (bar b) = true ->
    _is_closed (bar b) = true ->
    foldl call b calls = b.
Proof.
  induction calls as [|c calls IH]; intros b Hc Hd Hi; simpl; [reflexivity|].
  assert (call b c = b) as ->.
  { destruct c; simpl; unfold update, cancel, close;
      rewrite ?Hc, ?Hd, ?Hi; reflexivity. }
  apply IH; assumption.
Qed.

Lemma call_keeps_cancel_marks (b : Bars) (c : Call) :
  (_cancelled (bar b) = true ->
   disable (bar b) = true /\ _is_closed (bar b) = true) ->
  _cancelled (bar (call b c)) = true ->
  disable (bar (call b c)) = true /\ _is_closed (bar (call b c)) = true.
Proof.
  intros Hinv. destruct c as [k| |]; simpl; unfold update, cancel, close.
  - destruct (disable (bar b) || _cancelled (bar b)); simpl; exact Hinv.
  - destruct (_cancelled (bar b)) eqn:E; simpl; [|auto].
    intros _. destruct (Hinv eq_refl). auto.
  - destruct (_is_closed (bar b)) eqn:E; simpl;
      intros Hc; destruct (Hinv Hc) as [Hd _]; auto.
Qed.

Lemma calls_keep_cancel_marks (calls : list Call) :
  forall b,
    (_cancelled (bar b) = true ->
     disable (bar b) = true /\ _is_closed (bar b) = true) ->
    _cancelled (bar (foldl call b calls)) = true ->
    disable (bar (foldl call b calls)) = true
    /\ _is_closed (bar (foldl call b calls)) = true.
Proof.
  induction calls as [|c calls IH]; intros b Hinv; simpl; [exact Hinv|].
  apply IH. apply call_keeps_cancel_marks. exact Hinv.
Qed.

(** X19.  On a bar that is neither disabled nor cancelled, whatever calls
    of [update], [cancel] and [close] follow, the count [n] has grown by
    the sum of the updates made before the first [cancel()], a [close()]
    stopping nothing; once [cancel()] has been called every later call,
    a second [cancel()] included, leaves the bar and the list of bars as
    they are. *)
Theorem fake_tqdm_counts_until_cancelled (b : Bars) (calls after : list Call) :
  disable (bar b) = false ->
  _cancelled (bar b) = false ->
  n (bar (foldl call b calls)) = (n (bar b) + counted calls)%nat
  /\ foldl call (cancel (foldl call b calls)) after
     = cancel (foldl call b calls).
Proof.
  intros Hd Hc. split.
  - revert b Hd Hc. induction calls as [|c calls IH]; intros b Hd Hc.
    + simpl. lia.
    + destruct b as [[id n0 t d ic r c0 dis] all]. simpl in Hd, Hc. subst.
      destruct c as [k| |]; cbn [foldl call counted].
      * unfold update. cbn [bar disable _cancelled orb].
        rewrite IH by reflexivity. simpl. lia.
      * rewrite cancelled_bar_is_deaf by reflexivity. simpl. lia.
      * unfold close. cbn [bar _is_closed].
        destruct ic; cbn [negb]; rewrite IH by reflexivity; reflexivity.
  - pose proof (calls_keep_cancel_marks calls b) as Hinv.
    unfold cancel.
    destruct (_cancelled (bar (foldl call b calls))) eqn:E; simpl.
    + destruct Hinv as [H1 H2]; [rewrite Hc; discriminate|reflexivity|].
      apply cancelled_bar_is_deaf; assumption.
    + apply cancelled_bar_is_deaf; reflexivity.
Qed.

End progress_properties.

Section progress_examples.

Import tqdm.

Lemma fake_tqdm_counts_until_cancelled_witness :
  n (bar (foldl call data_bar [Update 10; Close; Update 5; Cancel; Update 7]))
  = (n (bar data_bar)
     + counted [Update 10; Close; Update 5; Cancel; Update 7])%nat
  /\ foldl call
       (cancel (foldl call data_bar
                  [Update 10; Close; Update 5; Cancel; Update 7]))
       [Cancel; Update 1]
     = cancel (foldl call data_bar
                 [Update 10; Close; Update 5; Cancel; Update 7]).
Proof.
  apply (fake_tqdm_counts_until_cancelled data_bar
           [Update 10; Close; Update 5; Cancel; Update 7] [Cancel; Update 1]);
    reflexivity.
Defined.

End progress_examples.

(** ** The search for the manifest files *)

Section manifest_collection_properties.

Import reboot_downloader.

Variables work_dir resource_path resource_files_path : text.

Lemma search_manifest_collected_well files0 ids id manifest_paths state :
  id ∈ ids ->
  collected_well work_dir files0 ids state ->
  collected_well work_dir files0 ids
    (search_manifest (in_dir work_dir (manifest_filename id.1 id.2))
       manifest_paths state.1 state.2).
Proof.
  intros Hin (Hsub & Horig & Hcol).
  destruct state as [files collected]; simpl in *.
  induction manifest_paths as [|manifest_path rest IH]; simpl.
  - repeat split; assumption.
  - unfold path_exists at 1.
    case_bool_decide as Hex; [|exact IH].
    set (target := in_dir work_dir (manifest_filename id.1 id.2)).
    case_bool_decide as Heq; simpl.
    + subst manifest_path.
      repeat split; simpl; try assumption.
      apply Forall_app; split; [assumption|].
      constructor; [|constructor].
      split; [assumption|]. exists id. split; [assumption|reflexivity].
    + unfold path_exists.
      case_bool_decide as Hex2; simpl.
      * repeat split; simpl; try assumption.
        apply Forall_app; split; [assumption|].
        constructor; [|constructor].
        split; [assumption|]. exists id. split; [assumption|reflexivity].
      * unfold copy2.
        destruct Hex as [content Hc]. rewrite Hc.
        assert (files !! target = None) as Hnone.
        { destruct (files !! target) eqn:E; [|reflexivity].
          exfalso. apply Hex2. eauto. }
        repeat split; simpl.
        -- etrans; [exact Hsub|]. apply insert_subseteq. exact Hnone.
        -- intros path c Hp.
           destruct (decide (path = target)) as [->|Hne].
           ++ assert (<[target:=content]> files !! target = Some content)
                as Hl by apply lookup_insert_eq.
              rewrite Hl in Hp. injection Hp as <-. eapply Horig, Hc.
           ++ assert (<[target:=content]> files !! path = files !! path)
                as Hl by (apply lookup_insert_ne; congruence).
              rewrite Hl in Hp. eapply Horig, Hp.
        -- apply Forall_app; split.
           ++ eapply Forall_impl; [exact Hcol|].
              intros path [Hs He]; split; [|exact He].
              apply lookup_insert_is_Some'. right. exact Hs.
           ++ constructor; [|constructor].
              split.
              ** apply lookup_insert_is_Some'. left. reflexivity.
              ** exists id. split; [assumption|reflexivity].
Qed.

Lemma collect_manifests_collected_well files0 ids todo state :
  todo ⊆ ids ->
  collected_well work_dir files0 ids state ->
  collected_well work_dir files0 ids
    (foldl (collect_manifest work_dir resource_path resource_files_path)
       state todo).
Proof.
  revert state.
  induction todo as [|id todo IH]; intros state Hin Hwell; simpl.
  - exact Hwell.
  - apply IH.
    + intros x Hx. apply Hin. right. exact Hx.
    + unfold collect_manifest.
      apply search_manifest_collected_well; [|exact Hwell].
      apply Hin. left.
Qed.

(** X20.  The search for the manifest files only adds to the file system:
    every file that existed before still exists with the same content, and
    every file present afterwards holds the content some file held before.
    Every path [get_data_local] returns names a file that exists when it
    returns, and is [work_dir / depot_manifest.manifest] for one of the
    (depot id, manifest id) pairs of the descriptor. *)
Theorem collected_manifests_exist_in_work_dir
    (files : Files) (ids : list (text * text)) :
  let result :=
    collect_manifests work_dir resource_path resource_files_path files ids in
  files ⊆ result.1
  /\ (forall path content, result.1 !! path = Some content ->
        exists origin, files !! origin = Some content)
  /\ Forall (fun path =>
        is_Some (result.1 !! path)
        /\ exists id, id ∈ ids
             /\ path = in_dir work_dir (manifest_filename id.1 id.2))
       result.2.
Proof.
  apply (collect_manifests_collected_well files ids ids (files, [])).
  - reflexivity.
  - repeat split; simpl.
    + reflexivity.
    + intros path content Hp. exists path. exact Hp.
    + constructor.
Qed.

End manifest_collection_properties.
